(** * email_automation.py: the candidate-processing pipeline

    A shallow embedding of [src/email_automation.py]: the response parser
    [parse_grok_response], the two language-model calls, [send_email],
    [add_missing_columns] and the per-candidate loop of [main].

    Modelling conventions.
    - A Python [str] is a [str] here too: the sequence of its code points.
      [str.strip] removes the white space of Unicode, the code points for
      which [str.isspace] holds.  The pattern [\d] matches, and [int]
      reads, the decimal digits: the ten ASCII digits and, above U+007F,
      the code points to which the Unicode tables of the interpreter give
      a decimal value.  Those tables grow with the versions of Unicode, so
      they are a parameter, [DigitTable]; [unicode_14_digits] is the
      table of Unicode 14.0.
    - [re.search] and [re.match] are run by a small backtracking matcher
      over the pattern syntax the two patterns of the program use.
    - A raised exception is a value: partial primitives return [option],
      the loop of [main] runs in a state-and-exception monad.  The state
      is the data frame [df], row 1 of the worksheet, and the trace of
      what the run does to the outside: what it shows to the operator,
      the SMTP sessions, the calls of the worksheet.
    - What the outside world answers (the two HTTP responses and the SMTP
      outcome of each candidate) is an explicit argument of the loop; the
      prompts sent with the two requests are not modelled.  Calls of the
      network libraries are taken to return: the exceptions they may
      raise themselves end the run in the handler of [main].
    - A cell holds a text or an integer; which dtype pandas gives to a
      column the loop creates is not modelled. *)

From Stdlib Require Import ZArith Ascii String DecimalString Bool List Lia.
From stdpp Require Import gmap list.
Import ListNotations.

Local Open Scope Z_scope.

(** ** Strings *)

(** A Python [str]: its code points, in order. *)
Inductive str : Type :=
| SEmpty
| SChar (c : N) (t : str).

(** A literal between double quotes is the [str] of its characters, which
    have to be ASCII. *)
Definition str_of_bytes (bs : list Byte.byte) : option str :=
  foldr (fun b acc =>
           match acc with
           | Some t => if (Byte.to_N b <? 128)%N then Some (SChar (Byte.to_N b) t) else None
           | None => None
           end) (Some SEmpty) bs.

Fixpoint bytes_of_str (t : str) : option (list Byte.byte) :=
  match t with
  | SEmpty => Some []
  | SChar c t' =>
      match Byte.of_N c, bytes_of_str t' with
      | Some b, Some bs => if (c <? 128)%N then Some (b :: bs) else None
      | _, _ => None
      end
  end.

Declare Scope str_scope.
Delimit Scope str_scope with str.
Bind Scope str_scope with str.
String Notation str str_of_bytes bytes_of_str : str_scope.
Local Open Scope str_scope.

(** [ord(c)] of an ASCII character. *)
Definition ord (a : ascii) : N := N_of_ascii a.

(** [len(s)] *)
Fixpoint str_len (s : str) : nat :=
  match s with
  | SEmpty => O
  | SChar _ s' => S (str_len s')
  end.

(** [a + b] *)
Fixpoint str_app (a b : str) : str :=
  match a with
  | SEmpty => b
  | SChar c a' => SChar c (str_app a' b)
  end.

Infix "+:+" := str_app (at level 60, right associativity) : str_scope.

(** [a == b] *)
Fixpoint str_eqb (a b : str) : bool :=
  match a, b with
  | SEmpty, SEmpty => true
  | SChar c a', SChar d b' => (c =? d)%N && str_eqb a' b'
  | _, _ => false
  end.

Fixpoint str_to_list (t : str) : list N :=
  match t with
  | SEmpty => []
  | SChar c t' => c :: str_to_list t'
  end.

Fixpoint list_to_str (l : list N) : str :=
  match l with
  | [] => SEmpty
  | c :: l' => SChar c (list_to_str l')
  end.

(** The [str] of a Rocq string of ASCII characters. *)
Definition str_of_string (s : string) : str :=
  list_to_str (List.map N_of_ascii (list_ascii_of_string s)).

#[global] Instance str_eq_dec : EqDecision str.
Proof. solve_decision. Defined.

#[global] Instance str_countable : Countable str.
Proof.
  apply (inj_countable' str_to_list list_to_str).
  induction x as [|c t IH]; simpl; [reflexivity | now rewrite IH].
Defined.

(** ** The Unicode tables *)

(** The decimal digits above U+007F: [decimal_above c] is the value of
    the code point [c] when the Unicode tables of the interpreter make it
    a decimal digit (general category Nd).  A decimal digit has one of the
    values 0 to 9. *)
Class DigitTable : Type := {
  decimal_above : N -> option N;
  decimal_above_digit : forall c v, decimal_above c = Some v -> (v <= 9)%N
}.

(** The first code points of the runs of ten decimal digits of Unicode
    14.0, the tables of CPython 3.11. *)
Definition unicode_14_digit_runs : list N :=
  [ 0x30; 0x660; 0x6f0; 0x7c0; 0x966; 0x9e6; 0xa66; 0xae6; 0xb66; 0xbe6;
    0xc66; 0xce6; 0xd66; 0xde6; 0xe50; 0xed0; 0xf20; 0x1040; 0x1090; 0x17e0;
    0x1810; 0x1946; 0x19d0; 0x1a80; 0x1a90; 0x1b50; 0x1bb0; 0x1c40; 0x1c50;
    0xa620; 0xa8d0; 0xa900; 0xa9d0; 0xa9f0; 0xaa50; 0xabf0; 0xff10; 0x104a0;
    0x10d30; 0x11066; 0x110f0; 0x11136; 0x111d0; 0x112f0; 0x11450; 0x114d0;
    0x11650; 0x116c0; 0x11730; 0x118e0; 0x11950; 0x11c50; 0x11d50; 0x11da0;
    0x16a60; 0x16ac0; 0x16b50; 0x1d7ce; 0x1d7d8; 0x1d7e2; 0x1d7ec; 0x1d7f6;
    0x1e140; 0x1e2f0; 0x1e950; 0x1fbf0 ]%N.

(** The decimal value of a code point, from the runs of ten digits. *)
Definition decimal_in (runs : list N) (c : N) : option N :=
  (fun first => c - first)%N
    <$> List.find (fun first => (first <=? c) && (c <? first + 10))%N runs.

Definition unicode_14_digits : DigitTable.
Proof.
  refine {| decimal_above := decimal_in unicode_14_digit_runs |}.
  intros c v. unfold decimal_in.
  destruct (List.find _ unicode_14_digit_runs) as [first|] eqn:E; [|discriminate].
  intros [= <-]. apply List.find_some in E as [_ E].
  apply andb_true_iff in E as [E1 E2].
  apply N.leb_le in E1. apply N.ltb_lt in E2. lia.
Defined.

Section Program.
Context {digits : DigitTable}.

(** ** Characters *)

(** [c.isspace()], which is what [str.strip] goes by: the code points
    U+0009 to U+000D, U+001C to U+0020, U+0085, U+00A0, U+1680, U+2000 to
    U+200A, U+2028, U+2029, U+202F, U+205F and U+3000.  This set has been
    the same since Unicode 6.3. *)
Definition is_space (c : N) : bool :=
  ((9 <=? c) && (c <=? 13) || (28 <=? c) && (c <=? 32)
   || (c =? 133) || (c =? 160) || (c =? 5760)
   || (8192 <=? c) && (c <=? 8202) || (c =? 8232) || (c =? 8233)
   || (c =? 8239) || (c =? 8287) || (c =? 12288))%N.

(** The decimal value of a character, if it is a decimal digit: what
    [int] reads it as. *)
Definition decimal (c : N) : option N :=
  if (c <? 128)%N
  then (if (48 <=? c) && (c <=? 57) then Some (c - 48) else None)%N
  else decimal_above c.

(** What [\d] matches. *)
Definition is_digit (c : N) : bool :=
  match decimal c with
  | Some _ => true
  | None => false
  end.

(** The value of a digit. *)
Definition digit_value (c : N) : Z :=
  match decimal c with
  | Some v => Z.of_N v
  | None => 0
  end.

(** ** Python string primitives *)

(** [s.lstrip()] *)
Fixpoint lstrip (s : str) : str :=
  match s with
  | SEmpty => SEmpty
  | SChar c s' => if is_space c then lstrip s' else s
  end.

(** [s.rstrip()] *)
Fixpoint rstrip (s : str) : str :=
  match s with
  | SEmpty => SEmpty
  | SChar c s' =>
      match rstrip s' with
      | SEmpty => if is_space c then SEmpty else SChar c SEmpty
      | r => SChar c r
      end
  end.

(** [s.strip()] *)
Definition strip (s : str) : str := rstrip (lstrip s).

(** [s.startswith(p)] *)
Fixpoint startswith (p s : str) : bool :=
  match p, s with
  | SEmpty, _ => true
  | SChar a p', SChar b s' => if (a =? b)%N then startswith p' s' else false
  | SChar _ _, SEmpty => false
  end.

(** [sub in s] *)
Fixpoint contains (sub s : str) : bool :=
  if startswith sub s then true
  else match s with
       | SEmpty => false
       | SChar _ s' => contains sub s'
       end.

(** The text that follows the first [n] characters of [s]. *)
Fixpoint drop_str (n : nat) (s : str) : str :=
  match n, s with
  | O, _ => s
  | S n', SChar _ s' => drop_str n' s'
  | S _, SEmpty => SEmpty
  end.

(** [s.split(sep, 1)] for a non-empty separator: the text cut at the
    first occurrence of [sep], or the text alone when there is none. *)
Fixpoint split1 (sep s : str) : list str :=
  if startswith sep s then [SEmpty; drop_str (str_len sep) s]
  else match s with
       | SEmpty => [SEmpty]
       | SChar c s' =>
           match split1 sep s' with
           | [whole] => [SChar c whole]
           | before :: rest => SChar c before :: rest
           | [] => []
           end
       end.

(** [int(s)] on a string of digits; [None] stands for [ValueError]. *)
Fixpoint int_acc (acc : Z) (s : str) : option Z :=
  match s with
  | SEmpty => Some acc
  | SChar c s' =>
      if is_digit c then int_acc (10 * acc + digit_value c) s' else None
  end.

Definition py_int (s : str) : option Z :=
  match s with
  | SEmpty => None
  | _ => int_acc 0 s
  end.

(** ** Regular expressions

    The fragment of Python's [re] syntax that the program's two patterns
    are written in. *)

Inductive cset_item : Type :=
| CsChar (c : N)
| CsRange (lo hi : N).

Inductive atom : Type :=
| ALit (c : N)                 (* an ordinary character *)
| AEsc_d                           (* \d *)
| ASet (items : list cset_item).   (* [...] *)

Inductive regex : Type :=
| RAtom (a : atom)
| RRepeat (a : atom) (lo : nat) (hi : option nat)  (* greedy a{lo,hi}, a+ *)
| RGroup (n : nat) (r : regex)                     (* capturing group n *)
| RCat (r1 r2 : regex)
| RBol                                             (* ^ *)
| REol.                                            (* $ *)

(** Membership in a class, item by item. *)
Definition in_item (c : N) (i : cset_item) : bool :=
  match i with
  | CsChar d => (c =? d)%N
  | CsRange lo hi => ((lo <=? c) && (c <=? hi))%N
  end.

(** The characters a one-character pattern matches. *)
Definition atom_matches (a : atom) (c : N) : bool :=
  match a with
  | ALit d => (c =? d)%N
  | AEsc_d => is_digit c
  | ASet items => existsb (in_item c) items
  end.

(** The captured groups, and the match object. *)
Definition groups := list (nat * str).

Record match_obj : Type := MatchObj {
  m_start : nat;
  m_end : nat;
  m_groups : groups
}.

(** The first [n] characters of [s]. *)
Fixpoint take_str (n : nat) (s : str) : str :=
  match n, s with
  | O, _ => SEmpty
  | S n', SChar c s' => SChar c (take_str n' s')
  | S _, SEmpty => SEmpty
  end.

Section Matcher.
Context {A : Type}.

(** Greedy repetition of a one-character atom: take one more character
    when allowed, and fall back to stopping here when the rest of the
    pattern fails after it. *)
Fixpoint rrepeat (a : atom) (lo : nat) (hi : option nat)
    (s : str) (pos : nat) (k : str -> nat -> option A) : option A :=
  let stop := match lo with O => k s pos | S _ => None end in
  match hi with
  | Some O => stop
  | _ =>
      match s with
      | SChar c s' =>
          if atom_matches a c then
            match rrepeat a (Nat.pred lo) (option_map Nat.pred hi) s' (S pos) k with
            | Some r => Some r
            | None => stop
            end
          else stop
      | SEmpty => stop
      end
  end.

(** [rmatch r s pos gs k]: match [r] against [s], the text that starts
    at offset [pos], then run the continuation [k] on what is left. *)
Fixpoint rmatch (r : regex) (s : str) (pos : nat) (gs : groups)
    (k : str -> nat -> groups -> option A) : option A :=
  match r with
  | RAtom a =>
      match s with
      | SChar c s' => if atom_matches a c then k s' (S pos) gs else None
      | SEmpty => None
      end
  | RRepeat a lo hi => rrepeat a lo hi s pos (fun s' pos' => k s' pos' gs)
  | RGroup n r1 =>
      rmatch r1 s pos gs
        (fun s' pos' gs' => k s' pos' ((n, take_str (pos' - pos) s) :: gs'))
  | RCat r1 r2 =>
      rmatch r1 s pos gs (fun s' pos' gs' => rmatch r2 s' pos' gs' k)
  | RBol => match pos with O => k s pos gs | S _ => None end
  | REol =>
      match s with
      | SEmpty => k s pos gs
      | SChar c SEmpty =>
          if (c =? 10)%N then k s pos gs else None
      | _ => None
      end
  end.
End Matcher.

(** One attempt at offset [pos]. *)
Definition match_here (r : regex) (s : str) (pos : nat) : option match_obj :=
  rmatch r s pos [] (fun _ e gs => Some (MatchObj pos e gs)).

(** [re.match(r, s)] *)
Definition re_match (r : regex) (s : str) : option match_obj :=
  match_here r s 0.

(** The attempts of [re.search], offset after offset, up to the end. *)
Fixpoint search_from (r : regex) (s : str) (pos : nat) : option match_obj :=
  match match_here r s pos with
  | Some m => Some m
  | None =>
      match s with
      | SEmpty => None
      | SChar _ s' => search_from r s' (S pos)
      end
  end.

(** [re.search(r, s)]: the match at the leftmost offset that has one. *)
Definition re_search (r : regex) (s : str) : option match_obj :=
  search_from r s 0.

(** [m.group(n)] *)
Definition group (n : nat) (m : match_obj) : option str :=
  snd <$> List.find (fun g => Nat.eqb (fst g) n) (m_groups m).

(** ** The response parser *)

(** The dictionary of a rating and a reason that the parser returns. *)
Record evaluation : Type := Evaluation { rating : Z; reason : str }.

(** [r'(\d{1,2})/10'] *)
Definition rating_regex : regex :=
  RCat (RGroup 1 (RRepeat AEsc_d 1 (Some 2%nat)))
       (RCat (RAtom (ALit (ord "/"))) (RCat (RAtom (ALit (ord "1"))) (RAtom (ALit (ord "0"))))).

(** [parse_grok_response]; [None] stands for a raised exception. *)
Definition parse_grok_response (response_text : str) : option evaluation :=
  rating ←
    match re_search rating_regex response_text with
    | Some rating_match => group 1 rating_match ≫= py_int
    | None => Some 0
    end;
  reason ←
    (if contains "Reason:" response_text
     then strip <$> (split1 "Reason:" response_text !! 1%nat)
     else Some response_text);
  Some (Evaluation rating reason).

(** ** The outside world *)

(** An HTTP response of the chat-completion endpoint: its status code and
    the text at [choices[0].message.content] of its JSON body. *)
Record http_response : Type := HttpResponse {
  status_code : Z;
  content : str
}.

(** What the outside world answers while one candidate is processed: the
    response to the invitation request, the response to the evaluation
    request, and the exception the SMTP session raises, if any. *)
Record outcomes : Type := Outcomes {
  invite_response : http_response;
  evaluation_response : http_response;
  smtp_error : option str
}.

(** A cell of the data frame or of the worksheet. *)
Inductive value : Type :=
| VStr (s : str)
| VInt (n : Z).

(** The exceptions the modelled code can raise. *)
Inductive exn : Type :=
| KeyError (key : str)
| ValueError (what : str).

(** What [st.write] shows. *)
Inductive message : Type :=
| MsgText (s : str)
| MsgEvaluation (name : str) (e : evaluation)
| MsgEvaluationFailed (name : str) (status : Z).

(** The observable actions of a run, in the order they happen. *)
Inductive event : Type :=
| StWrite (m : message)
| StWarning (s : str)
| StSuccess (s : str)
| StError (e : exn)
| SmtpSend (to subject body : str)     (* one SMTP session of send_email *)
| AddCols (n : Z)                         (* worksheet.add_cols *)
| UpdateCell (row col : Z) (v : value).   (* worksheet.update_cell *)

(** What a run changes. *)
Record state : Type := State {
  df : list (gmap str value);          (* the data frame, row by row *)
  sheet_header : list str;             (* row 1 of the worksheet *)
  trace : list event
}.

(** The dictionary [cohort_details]. *)
Record cohort : Type := Cohort {
  venue : str;
  date : str;
  time : str;
  description : str;
  min_rating : Z
}.

(** ** The state-and-exception monad of [main] *)

Definition M (A : Type) : Type := state -> (exn + A) * state.

#[global] Instance M_ret : MRet M := fun A x st => (inr x, st).

#[global] Instance M_bind : MBind M := fun A B f m st =>
  match m st with
  | (inr x, st') => f x st'
  | (inl e, st') => (inl e, st')
  end.

Definition raise {A : Type} (e : exn) : M A := fun st => (inl e, st).

Definition from_option {A : Type} (e : exn) (o : option A) : M A :=
  match o with
  | Some x => mret x
  | None => raise e
  end.

Definition emit (ev : event) : M unit := fun st =>
  (inr tt, State (df st) (sheet_header st) (trace st ++ [ev])).

(** [df.at[idx, col] = v], for [idx] a row of the frame, as it is in the
    loop of [main]; a column the frame does not have yet is created. *)
Definition df_at_set (idx : nat) (col : str) (v : value) : M unit := fun st =>
  (inr tt, State (alter (<[col := v]>) idx (df st)) (sheet_header st) (trace st)).

(** [df.at[idx, col]]; a cell without a value is a [KeyError]. *)
Definition df_at_get (idx : nat) (col : str) : M value := fun st =>
  match df st !! idx ≫= (.!! col) with
  | Some v => (inr v, st)
  | None => (inl (KeyError col), st)
  end.

(** The text a cell shows. *)
Definition value_text (v : value) : str :=
  match v with
  | VStr s => s
  | VInt n => str_of_string (NilZero.string_of_int (Z.to_int n))
  end.

(** Row 1 of the worksheet after cell [c] (counted from 0) is set. *)
Definition set_header_cell (c : nat) (s : str) (hdr : list str) : list str :=
  <[c := s]> (hdr ++ replicate (S c - length hdr) SEmpty).

(** [worksheet.update_cell(row, col, v)] *)
Definition update_cell (row col : Z) (v : value) : M unit := fun st =>
  (inr tt,
   State (df st)
         (if (row =? 1) && (1 <=? col)
          then set_header_cell (Z.to_nat (col - 1)) (value_text v) (sheet_header st)
          else sheet_header st)
         (trace st ++ [UpdateCell row col v])).

(** [worksheet.row_values(1)] *)
Definition row_values_1 : M (list str) := fun st => (inr (sheet_header st), st).

(** [header.index(col)]; [None] stands for [ValueError]. *)
Fixpoint list_index (col : str) (header : list str) : option nat :=
  match header with
  | [] => None
  | h :: t => if str_eqb h col then Some O else S <$> list_index col t
  end.

(** [col in header] *)
Definition list_mem (col : str) (header : list str) : bool :=
  existsb (str_eqb col) header.

(** ** The collaborators *)

(** [evaluate_and_generate_email], given the response to its request. *)
Definition evaluate_and_generate_email (suitability_response : http_response) : str :=
  if status_code suitability_response =? 200
  then strip (content suitability_response)
  else "Error in generating email content.".

(** [evaluate_candidate_with_grok], given the response to its request.
    An exception of the parser would pass through; the parser raises
    none ([parse_grok_response_total]). *)
Definition evaluate_candidate_with_grok (name : str) (response : http_response)
    : M evaluation :=
  if status_code response =? 200 then
    evaluation ← from_option (ValueError "parse_grok_response")
                   (parse_grok_response (content response));
    _ ← emit (StWrite (MsgEvaluation name evaluation));
    mret evaluation
  else
    _ ← emit (StWrite (MsgEvaluationFailed name (status_code response)));
    mret (Evaluation 0 "Error in retrieving data").

(** [send_email], given what the SMTP session does. *)
Definition send_email (email email_subject email_content : str)
    (smtp : option str) : M str :=
  _ ← emit (SmtpSend email email_subject email_content);
  match smtp with
  | None => mret ("Email sent successfully to " +:+ email)
  | Some e => mret ("Failed to send email to " +:+ email +:+ ": " +:+ e)
  end.

(** The body of the loop of [add_missing_columns], for one column. *)
Definition add_missing_column (col : str) (header : list str) : M (list str) :=
  if list_mem col header then mret header
  else
    _ ← emit (AddCols 1);
    _ ← update_cell 1 (Z.of_nat (length header) + 1) (VStr col);
    mret (header ++ [col]).

Definition missing_columns : list str := ["Status"; "Evaluation Reason"; "Rating"].

Definition add_missing_columns : M unit :=
  header ← row_values_1;
  _ ← foldl (fun acc col => header ← acc; add_missing_column col header)
            (mret header) missing_columns;
  mret tt.

(** ** The loop of [main] *)

(** The three character classes of the address pattern, as written. *)
Definition local_class : atom :=     (* [a-zA-Z0-9._%+-] *)
  ASet [CsRange (ord "a") (ord "z"); CsRange (ord "A") (ord "Z"); CsRange (ord "0") (ord "9");
        CsChar (ord "."); CsChar (ord "_"); CsChar (ord "%"); CsChar (ord "+"); CsChar (ord "-")].

Definition domain_class : atom :=    (* [a-zAZ0-9.-] *)
  ASet [CsRange (ord "a") (ord "z"); CsChar (ord "A"); CsChar (ord "Z"); CsRange (ord "0") (ord "9");
        CsChar (ord "."); CsChar (ord "-")].

Definition tld_class : atom :=       (* [a-zA-Z] *)
  ASet [CsRange (ord "a") (ord "z"); CsRange (ord "A") (ord "Z")].

(** [^[a-zA-Z0-9._%+-]+@[a-zAZ0-9.-]+\.[a-zA-Z]{2,}$] *)
Definition email_regex : regex :=
  RCat RBol
  (RCat (RRepeat local_class 1 None)
  (RCat (RAtom (ALit (ord "@")))
  (RCat (RRepeat domain_class 1 None)
  (RCat (RAtom (ALit (ord ".")))
  (RCat (RRepeat tld_class 2 None)
        REol))))).

(** The truth value of [re.match(email_regex, email)]. *)
Definition email_ok (email : str) : bool :=
  bool_decide (is_Some (re_match email_regex email)).

(** The stripped [Emails] field: [candidate.get('Emails', '').strip()]. *)
Definition candidate_email (candidate : gmap str str) : str :=
  strip (default SEmpty (candidate !! "Emails")).

(** [worksheet.update_cell(row_number, header.index(col) + 1, df.at[idx, col])] *)
Definition persist (header : list str) (idx : nat) (col : str) : M unit :=
  let row_number := Z.of_nat idx + 2 in
  c ← from_option (ValueError "list.index") (list_index col header);
  v ← df_at_get idx col;
  update_cell row_number (Z.of_nat c + 1) v.

(** One turn of [for idx, candidate in df.iterrows()]. *)
Definition process_candidate (cohort_details : cohort) (email_subject : str)
    (header : list str) (idx : nat) (candidate : gmap str str)
    (w : outcomes) : M unit :=
  let response := evaluate_and_generate_email (invite_response w) in
  name ← from_option (KeyError "Applicant Name") (candidate !! "Applicant Name");
  evaluation ← evaluate_candidate_with_grok name (evaluation_response w);
  let rating := rating evaluation in
  _ ← df_at_set idx "Rating" (VInt rating);
  _ ← df_at_set idx "Evaluation Reason" (VStr (reason evaluation));
  let email := candidate_email candidate in
  if email_ok email then
    if rating >=? min_rating cohort_details then
      _ ← df_at_set idx "Status" (VStr "Selected and Email Sent");
      let email_content := response in
      sent ← send_email email email_subject email_content (smtp_error w);
      _ ← emit (StWrite (MsgText sent));
      _ ← persist header idx "Status";
      _ ← persist header idx "Evaluation Reason";
      persist header idx "Rating"
    else
      df_at_set idx "Status" (VStr "Not Selected")
  else
    emit (StWarning ("Invalid or missing email for "
                     +:+ default "Unknown" (candidate !! "Applicant Name") +:+ ".")).

(** [for idx, candidate in df.iterrows()], from index [idx] on. The
    rows are those the frame has when the loop starts: what a turn stores
    in [df] does not show in the [candidate] of a later turn. *)
Fixpoint iterrows (cohort_details : cohort) (email_subject : str)
    (header : list str) (world : nat -> outcomes)
    (idx : nat) (rows : list (gmap str str)) : M unit :=
  match rows with
  | [] => mret tt
  | candidate :: rest =>
      _ ← process_candidate cohort_details email_subject header idx candidate (world idx);
      iterrows cohort_details email_subject header world (S idx) rest
  end.

(** [pd.DataFrame(data).map(str)]: one row per record, every value a text. *)
Definition data_frame (data : list (gmap str str)) : list (gmap str value) :=
  (fun record : gmap str str => VStr <$> record) <$> data.

(** [df = ...] *)
Definition set_df (rows : list (gmap str value)) : M unit := fun st =>
  (inr tt, State rows (sheet_header st) (trace st)).

(** The [try] block of [main], once the form is filled in: [data] is what
    [worksheet.get_all_records()] returns, every value turned into text. *)
Definition main_try (cohort_details : cohort) (email_subject : str)
    (data : list (gmap str str)) (world : nat -> outcomes) : M unit :=
  _ ← set_df (data_frame data);
  _ ← add_missing_columns;
  _ ← emit (StWrite (MsgText "Evaluating candidates..."));
  header ← row_values_1;
  _ ← iterrows cohort_details email_subject header world 0 data;
  emit (StSuccess "Process completed!").

(** [main] from the click on the button: the [try] block and its handler. *)
Definition main (cohort_details : cohort) (email_subject : str)
    (header0 : list str) (data : list (gmap str str))
    (world : nat -> outcomes) : state :=
  let st0 := State [] header0 [StWrite (MsgText "Fetching data from Google Sheets...")] in
  match main_try cohort_details email_subject data world st0 with
  | (inr _, st) => st
  | (inl e, st) => State (df st) (sheet_header st) (trace st ++ [StError e])
  end.

(** * The vocabulary of the properties

    Predicates and functions the statements are written with. None of
    them is part of the program. *)

(** ** Texts *)

(** Every character of [s] satisfies [p]. *)
Fixpoint all_str (p : N -> bool) (s : str) : bool :=
  match s with
  | SEmpty => true
  | SChar c s' => p c && all_str p s'
  end.

(** The number a string of decimal digits denotes. *)
Definition number (d : str) : Z :=
  fold_left (fun acc c => 10 * acc + digit_value c) (str_to_list d) 0.

(** An occurrence of the rating pattern at offset [i] of [text]: one or
    two digits that denote [n], and the text [/10] right after them. *)
Definition rating_occurs_at (text : str) (i : nat) (n : Z) : Prop :=
  exists before d after,
    text = before +:+ d +:+ "/10" +:+ after /\ str_len before = i /\
    (1 <= str_len d <= 2)%nat /\ all_str is_digit d = true /\ number d = n.

(** [sub] occurs in [text] at offset [i]. *)
Definition occurs_at (sub text : str) (i : nat) : Prop :=
  exists before after, text = before +:+ sub +:+ after /\ str_len before = i.

(** [s] begins, respectively ends, with white space. *)
Definition first_char_space (s : str) : bool :=
  match s with
  | SEmpty => false
  | SChar c _ => is_space c
  end.

Fixpoint last_char_space (s : str) : bool :=
  match s with
  | SEmpty => false
  | SChar c SEmpty => is_space c
  | SChar _ s' => last_char_space s'
  end.

(** ** Events and rows *)

Definition is_store_write (ev : event) : bool :=
  match ev with UpdateCell _ _ _ => true | _ => false end.

Definition is_smtp_send (ev : event) : bool :=
  match ev with SmtpSend _ _ _ => true | _ => false end.

(** The cells written to the worksheet, and the mails handed to SMTP. *)
Definition store_writes (evs : list event) : list event := List.filter is_store_write evs.
Definition smtp_sends (evs : list event) : list event := List.filter is_smtp_send evs.

(** What [evaluate_candidate_with_grok] shows to the operator. *)
Definition evaluation_message (name : str) (response : http_response)
    (e : evaluation) : message :=
  if status_code response =? 200 then MsgEvaluation name e
  else MsgEvaluationFailed name (status_code response).

(** What [evaluate_candidate_with_grok] returns. *)
Definition evaluation_for (response : http_response) : option evaluation :=
  if status_code response =? 200 then parse_grok_response (content response)
  else Some (Evaluation 0 "Error in retrieving data").

(** The row of the data frame once the evaluation is stored in it. *)
Definition with_evaluation (e : evaluation) (row : gmap str value) : gmap str value :=
  <["Evaluation Reason" := VStr (reason e)]> (<["Rating" := VInt (rating e)]> row).

(** What [send_email] returns. *)
Definition send_message (email : str) (smtp : option str) : str :=
  match smtp with
  | None => "Email sent successfully to " +:+ email
  | Some err => "Failed to send email to " +:+ email +:+ ": " +:+ err
  end.

(** The row a turn of the loop leaves in the data frame. *)
Definition processed_row (cd : cohort) (candidate : gmap str str)
    (e : evaluation) (row : gmap str value) : gmap str value :=
  if email_ok (candidate_email candidate) then
    <["Status" := VStr (if rating e >=? min_rating cd
                        then "Selected and Email Sent" else "Not Selected")]>
      (with_evaluation e row)
  else with_evaluation e row.

(** The column of [name] in the worksheet, counted from 1. *)
Definition column (header : list str) (name : str) : Z :=
  Z.of_nat (default 0%nat (list_index name header)) + 1.

(** What a turn of the loop does to the outside, for a candidate called
    [name] whose evaluation is [e]. *)
Definition candidate_events (cd : cohort) (subj : str) (header : list str)
    (idx : nat) (candidate : gmap str str) (w : outcomes)
    (name : str) (e : evaluation) : list event :=
  StWrite (evaluation_message name (evaluation_response w) e) ::
  if email_ok (candidate_email candidate) then
    if rating e >=? min_rating cd then
      [SmtpSend (candidate_email candidate) subj
                (evaluate_and_generate_email (invite_response w));
       StWrite (MsgText (send_message (candidate_email candidate) (smtp_error w)));
       UpdateCell (Z.of_nat idx + 2) (column header "Status")
                  (VStr "Selected and Email Sent");
       UpdateCell (Z.of_nat idx + 2) (column header "Evaluation Reason")
                  (VStr (reason e));
       UpdateCell (Z.of_nat idx + 2) (column header "Rating") (VInt (rating e))]
    else []
  else [StWarning ("Invalid or missing email for " +:+ name +:+ ".")].

(** What the loop does to the outside, from row [idx] on. *)
Fixpoint loop_events (cd : cohort) (subj : str) (header : list str)
    (world : nat -> outcomes) (idx : nat) (rows : list (gmap str str))
    : list event :=
  match rows with
  | [] => []
  | candidate :: rest =>
      match candidate !! "Applicant Name",
            evaluation_for (evaluation_response (world idx)) with
      | Some name, Some e =>
          candidate_events cd subj header idx candidate (world idx) name e
          ++ loop_events cd subj header world (S idx) rest
      | _, _ => []
      end
  end.


(** ** The header row *)

(** The header once a column is made sure of. *)
Definition ensure (col : str) (header : list str) : list str :=
  if list_mem col header then header else header ++ [col].

(** What making sure of a column does to the worksheet. *)
Definition ensure_events (col : str) (header : list str) : list event :=
  if list_mem col header then []
  else [AddCols 1; UpdateCell 1 (Z.of_nat (length header) + 1) (VStr col)].

(** The header, and the actions, of [add_missing_columns] as a whole. *)
Definition with_columns (header : list str) : list str :=
  ensure "Rating" (ensure "Evaluation Reason" (ensure "Status" header)).

Definition columns_events (header : list str) : list event :=
  ensure_events "Status" header
  ++ ensure_events "Evaluation Reason" (ensure "Status" header)
  ++ ensure_events "Rating" (ensure "Evaluation Reason" (ensure "Status" header)).

(** ** Sample inputs *)

Definition example_cohort : cohort :=
  Cohort "Main hall" "2025-03-01" "10:00:00" "Founders cohort" 5.

Definition example_header : list str :=
  ["Applicant Name"; "Emails"; "Status"; "Evaluation Reason"; "Rating"].

Definition candidate_a : gmap str str :=
  {[ "Applicant Name" := "A"; "Emails" := " a@example.com " ]}.

Definition candidate_b : gmap str str :=
  {[ "Applicant Name" := "B"; "Emails" := SEmpty ]}.

Definition candidate_c : gmap str str :=
  {[ "Applicant Name" := "C"; "Emails" := "c@example.org" ]}.

Definition strong_fit : outcomes :=
  Outcomes (HttpResponse 200 " Dear A, please join us. ")
           (HttpResponse 200 "8/10 Reason: strong fit") None.

Definition no_markers : outcomes :=
  Outcomes (HttpResponse 200 "Dear B, please join us.")
           (HttpResponse 200 "Not sure, maybe later") None.

(** The loop about to process the only row of a one-row sheet. *)
Definition example_state (candidate : gmap str str) : state :=
  State [VStr <$> candidate] example_header [].

Definition generation_down : outcomes :=
  Outcomes (HttpResponse 503 SEmpty) (HttpResponse 200 "8/10 Reason: strong fit") None.

Definition evaluation_down : outcomes :=
  Outcomes (HttpResponse 200 "Dear A, please join us.") (HttpResponse 500 SEmpty) None.



Definition example_world (idx : nat) : outcomes :=
  match idx with
  | O => strong_fit
  | 1%nat => no_markers
  | _ => evaluation_down
  end.

(** ** Addresses *)

(** What the address pattern accepts: a local part, [@], a domain part,
    a dot and a top-level domain, each over its own class, and at most a
    final newline. *)
Definition accepted_address (email : str) : Prop :=
  exists local dom tld eol,
    email = local +:+ "@" +:+ dom +:+ "." +:+ tld +:+ eol /\
    (1 <= str_len local)%nat /\ all_str (atom_matches local_class) local = true /\
    (1 <= str_len dom)%nat /\ all_str (atom_matches domain_class) dom = true /\
    (2 <= str_len tld)%nat /\ all_str (atom_matches tld_class) tld = true /\
    (eol = SEmpty \/ eol = SChar 10 SEmpty).

(** The upper-case letters from B to Y. *)
Definition upper_b_to_y (c : N) : bool := ((66 <=? c) && (c <=? 89))%N.

(** ** Further vocabulary *)

Definition candidate_d : gmap str str :=
  {[ "Applicant Name" := "D"; "Emails" := "d@Example.org" ]}.

(** The columns of [missing_columns] that the header lacks, in order. *)
Definition lacking (header : list str) : list str :=
  List.filter (fun col => negb (list_mem col header)) missing_columns.

(** The mail of the turn of a candidate evaluated as [e]. *)
Definition mail_of (cd : cohort) (subj : str) (candidate : gmap str str)
    (w : outcomes) (e : evaluation) : list event :=
  if email_ok (candidate_email candidate) && (rating e >=? min_rating cd)
  then [SmtpSend (candidate_email candidate) subj
                 (evaluate_and_generate_email (invite_response w))]
  else [].

Definition example_data : list (gmap str str) :=
  [candidate_a; candidate_c; candidate_b; candidate_d].

Definition example_answers (idx : nat) : outcomes :=
  match idx with
  | 1%nat => no_markers
  | _ => strong_fit
  end.


Definition example_data_rerun : list (gmap str str) :=
  [ <["Status" := "Selected and Email Sent"]> candidate_a; candidate_c;
    candidate_b; candidate_d ].

(** The fields of a record that the loop does not derive. *)
Definition kept_column (col : str) : Prop :=
  col <> "Status" /\ col <> "Evaluation Reason" /\ col <> "Rating".

(** [st'] has the rows of [st], with the same values in the kept columns. *)
Definition keeps (st st' : state) : Prop :=
  length (df st') = length (df st) /\
  forall j col, kept_column col ->
    df st' !! j ≫= (.!! col) = df st !! j ≫= (.!! col).

Definition keeping {A : Type} (m : M A) : Prop := forall st, keeps st (snd (m st)).

(** * Properties *)

(** ** Strings *)

Lemma str_eqb_refl (a : str) : str_eqb a a = true.
Proof. induction a as [|c a IH]; simpl; [reflexivity|]. now rewrite N.eqb_refl. Qed.

Lemma str_eqb_sym (a b : str) : str_eqb a b = str_eqb b a.
Proof.
  revert b. induction a as [|c a IH]; intros [|d b]; simpl; try reflexivity.
  now rewrite N.eqb_sym, IH.
Qed.

Lemma app_empty_r (s : str) : s +:+ SEmpty = s.
Proof. induction s as [|c s IH]; simpl; [reflexivity | now rewrite IH]. Qed.

Lemma app_assoc_str (a b c : str) : (a +:+ b) +:+ c = a +:+ b +:+ c.
Proof. induction a as [|x a IH]; simpl; [reflexivity | now rewrite IH]. Qed.

Lemma length_app_str (a b : str) :
  str_len (a +:+ b) = (str_len a + str_len b)%nat.
Proof. induction a as [|x a IH]; simpl; [reflexivity | now rewrite IH]. Qed.

Lemma take_drop_str (n : nat) (s : str) : take_str n s +:+ drop_str n s = s.
Proof.
  revert s; induction n as [|n IH]; intros [|c s]; simpl; try reflexivity.
  now rewrite IH.
Qed.

Lemma drop_app_length (a b : str) : drop_str (str_len a) (a +:+ b) = b.
Proof. induction a as [|x a IH]; simpl; [reflexivity | exact IH]. Qed.

Lemma take_app_length (a b : str) : take_str (str_len a) (a +:+ b) = a.
Proof. induction a as [|x a IH]; simpl; [reflexivity | now rewrite IH]. Qed.

Lemma app_inv_length (a a' b b' : str) :
  a +:+ b = a' +:+ b' -> str_len a = str_len a' -> a = a' /\ b = b'.
Proof.
  revert a'; induction a as [|x a IH]; intros [|y a'] H Hl; simpl in *;
    try discriminate; [now split|].
  injection H as -> H. injection Hl as Hl.
  destruct (IH _ H Hl) as [-> ->]; now split.
Qed.

Lemma startswith_app (p s : str) : startswith p (p +:+ s) = true.
Proof.
  induction p as [|c p IH]; simpl; [reflexivity|].
  now rewrite N.eqb_refl.
Qed.

Lemma startswith_inv (p s : str) :
  startswith p s = true -> exists rest, s = p +:+ rest.
Proof.
  revert s; induction p as [|c p IH]; intros s H; simpl in *.
  - now exists s.
  - destruct s as [|d s]; [discriminate|].
    destruct ((c =? d)%N) eqn:E; [|discriminate].
    apply N.eqb_eq in E as ->.
    destruct (IH _ H) as [rest ->]. now exists rest.
Qed.

(** ** The matcher *)

Section RepeatFacts.
Context {A : Type} (a : atom) (k : str -> nat -> option A).

(** A successful greedy repetition consumed a run [u] of matching
    characters of an allowed length, and the continuation accepted the
    rest. *)
Lemma rrepeat_sound (s : str) : forall lo hi pos x,
  rrepeat a lo hi s pos k = Some x ->
  exists u v,
    s = u +:+ v /\ all_str (atom_matches a) u = true /\
    (lo <= str_len u)%nat /\
    (forall h, hi = Some h -> (str_len u <= h)%nat) /\
    k v (pos + str_len u)%nat = Some x.
Proof.
  assert (Hstop : forall lo hi pos x s0,
    match lo with O => k s0 pos | S _ => None end = Some x ->
    exists u v,
      s0 = u +:+ v /\ all_str (atom_matches a) u = true /\
      (lo <= str_len u)%nat /\
      (forall h, hi = Some h -> (str_len u <= h)%nat) /\
      k v (pos + str_len u)%nat = Some x).
  { intros [|lo] hi pos x s0 H; [|discriminate].
    exists SEmpty, s0. simpl. rewrite Nat.add_0_r.
    repeat split; auto with lia. }
  induction s as [|c s IH]; intros lo hi pos x H.
  - simpl in H. destruct hi as [[|h]|]; eauto.
  - simpl in H.
    destruct hi as [[|h]|]; [now eauto| |].
    + destruct (atom_matches a c) eqn:Hc; [|now eauto].
      destruct (rrepeat a (Nat.pred lo) (option_map Nat.pred (Some (S h))) s (S pos) k)
        as [y|] eqn:Hr; [|now eauto].
      injection H as ->.
      destruct (IH _ _ _ _ Hr) as (u & v & -> & Hu & Hlo & Hhi & Hk).
      exists (SChar c u), v. simpl. rewrite Hc, Hu.
      repeat split; auto with lia.
      * intros h' [= <-]. specialize (Hhi h eq_refl). lia.
      * now rewrite <- Nat.add_succ_comm.
    + destruct (atom_matches a c) eqn:Hc; [|now eauto].
      destruct (rrepeat a (Nat.pred lo) (option_map Nat.pred None) s (S pos) k)
        as [y|] eqn:Hr; [|now eauto].
      injection H as ->.
      destruct (IH _ _ _ _ Hr) as (u & v & -> & Hu & Hlo & Hhi & Hk).
      exists (SChar c u), v. simpl. rewrite Hc, Hu.
      repeat split; auto with lia.
      * intros h' [=].
      * now rewrite <- Nat.add_succ_comm.
Qed.

(** Backtracking is complete: when some run of matching characters of
    an allowed length leaves a rest the continuation accepts, the
    repetition succeeds. *)
Lemma rrepeat_complete (u : str) : forall v lo hi pos,
  all_str (atom_matches a) u = true ->
  (lo <= str_len u)%nat ->
  (forall h, hi = Some h -> (str_len u <= h)%nat) ->
  is_Some (k v (pos + str_len u)%nat) ->
  is_Some (rrepeat a lo hi (u +:+ v) pos k).
Proof.
  induction u as [|c u IH]; intros v lo hi pos Hu Hlo Hhi Hk.
  - simpl in *. rewrite Nat.add_0_r in Hk.
    assert (lo = O) as -> by lia.
    destruct v as [|d v]; simpl.
    + now destruct hi as [[|h]|].
    + destruct hi as [[|h]|]; [assumption| |];
        (destruct (atom_matches a d); [|assumption]);
        match goal with |- is_Some (match ?r with _ => _ end) =>
          destruct r; [eauto | assumption] end.
  - simpl in Hu. apply andb_true_iff in Hu as [Hc Hu]. simpl in Hlo, Hk.
    assert (Hrec : forall hi', (forall h, hi' = Some h -> (str_len u <= h)%nat) ->
              is_Some (rrepeat a (Nat.pred lo) hi' (u +:+ v) (S pos) k)).
    { intros hi' Hhi'. apply IH; auto with lia.
      now rewrite Nat.add_succ_comm. }
    simpl. destruct hi as [[|h]|].
    + specialize (Hhi O eq_refl). simpl in Hhi. lia.
    + rewrite Hc.
      destruct (Hrec (option_map Nat.pred (Some (S h)))) as [y ->]; [|eauto].
      intros h' [= <-]. specialize (Hhi _ eq_refl). simpl in Hhi. lia.
    + rewrite Hc.
      destruct (Hrec (option_map Nat.pred None)) as [y ->]; [|eauto].
      intros h' [=].
Qed.
End RepeatFacts.

Lemma search_from_Some (r : regex) (s : str) : forall pos m,
  search_from r s pos = Some m ->
  exists before rest,
    s = before +:+ rest /\
    match_here r rest (pos + str_len before) = Some m /\
    forall b' r', s = b' +:+ r' -> (str_len b' < str_len before)%nat ->
                  match_here r r' (pos + str_len b') = None.
Proof.
  induction s as [|c s IH]; intros pos m H; simpl in H.
  - destruct (match_here r SEmpty pos) eqn:E; [|discriminate].
    injection H as ->. exists SEmpty, SEmpty. simpl.
    rewrite Nat.add_0_r. split; [reflexivity|]. split; [assumption|].
    intros b' r' _ Hlt. lia.
  - destruct (match_here r (SChar c s) pos) eqn:E.
    + injection H as ->. exists SEmpty, (SChar c s). simpl.
      rewrite Nat.add_0_r. split; [reflexivity|]. split; [assumption|].
      intros b' r' _ Hlt. lia.
    + destruct (IH _ _ H) as (before & rest & -> & Hm & Hmin).
      exists (SChar c before), rest. simpl.
      split; [reflexivity|]. split; [now rewrite <- Nat.add_succ_comm|].
      intros [|c' b'] r' Heq Hlt; simpl in *.
      * subst r'. now rewrite Nat.add_0_r.
      * injection Heq as <- Heq. rewrite <- Nat.add_succ_comm.
        apply Hmin; [assumption | lia].
Qed.

Lemma search_from_None (r : regex) (s : str) : forall pos,
  search_from r s pos = None ->
  forall b' r', s = b' +:+ r' -> match_here r r' (pos + str_len b') = None.
Proof.
  induction s as [|c s IH]; intros pos H b' r' Heq; simpl in H.
  - destruct b'; [|discriminate]. simpl in Heq. subst r'. simpl.
    rewrite Nat.add_0_r. now destruct (match_here r SEmpty pos).
  - destruct (match_here r (SChar c s) pos) eqn:E; [discriminate|].
    destruct b' as [|c' b']; simpl in *.
    + subst r'. now rewrite Nat.add_0_r.
    + injection Heq as <- Heq. rewrite <- Nat.add_succ_comm. now apply IH.
Qed.

(** ** The rating pattern *)

Lemma int_acc_digits (d : str) : forall acc,
  all_str is_digit d = true ->
  int_acc acc d =
    Some (fold_left (fun acc c => 10 * acc + digit_value c) (str_to_list d) acc).
Proof.
  induction d as [|c d IH]; intros acc H; simpl in *; [reflexivity|].
  apply andb_true_iff in H as [Hc Hd]. rewrite Hc. now apply IH.
Qed.

Lemma py_int_digits (d : str) :
  all_str is_digit d = true -> d <> SEmpty -> py_int d = Some (number d).
Proof.
  intros H Hne. destruct d as [|c d]; [congruence|].
  unfold py_int, number. now apply int_acc_digits.
Qed.

(** A run of characters of a class, followed by a character that is not
    of the class, is determined by the text. *)
Lemma run_unique (p : N -> bool) (x : N) (Hx : p x = false) (d : str) :
  forall d' r r',
    d +:+ SChar x r = d' +:+ SChar x r' ->
    all_str p d = true -> all_str p d' = true ->
    d = d' /\ r = r'.
Proof.
  induction d as [|c d IH]; intros [|c' d'] r r' H Hd Hd'; simpl in *.
  - injection H as ->. now split.
  - injection H as <- _. apply andb_true_iff in Hd' as [Hd' _]. congruence.
  - injection H as -> _. apply andb_true_iff in Hd as [Hd _]. congruence.
  - injection H as <- H.
    apply andb_true_iff in Hd as [_ Hd]. apply andb_true_iff in Hd' as [_ Hd'].
    destruct (IH _ _ _ H Hd Hd') as [-> ->]. now split.
Qed.

(** A run of digits that a slash follows is determined by the text. *)
Lemma digits_slash_unique (d d' x x' : str) :
  d +:+ SChar (ord "/") x = d' +:+ SChar (ord "/") x' ->
  all_str is_digit d = true -> all_str is_digit d' = true ->
  d = d' /\ x = x'.
Proof. apply (run_unique is_digit (ord "/") eq_refl). Qed.

Lemma match_here_rating_sound (s : str) (pos : nat) (m : match_obj) :
  match_here rating_regex s pos = Some m ->
  exists d after,
    s = d +:+ "/10" +:+ after /\ all_str is_digit d = true /\
    (1 <= str_len d <= 2)%nat /\ group 1 m = Some d.
Proof.
  unfold match_here, rating_regex. cbn [rmatch]. intros H.
  apply rrepeat_sound in H as (u & v & -> & Hu & Hlo & Hhi & Hk).
  specialize (Hhi _ eq_refl).
  destruct v as [|c1 [|c2 [|c3 after]]]; cbn in Hk;
    repeat match type of Hk with
           | (if ?b then _ else _) = Some _ => destruct b eqn:?; [|discriminate]
           | None = Some _ => discriminate
           end.
  repeat match goal with E : (_ =? _)%N = true |- _ => apply N.eqb_eq in E; subst end.
  injection Hk as <-. exists u, after.
  repeat split; try assumption.
  unfold group. cbn.
  replace (pos + str_len u - pos)%nat with (str_len u) by lia.
  now rewrite take_app_length.
Qed.

Lemma match_here_rating_complete (d after : str) (pos : nat) :
  all_str is_digit d = true -> (1 <= str_len d <= 2)%nat ->
  exists m, match_here rating_regex (d +:+ "/10" +:+ after) pos = Some m /\
            group 1 m = Some d.
Proof.
  intros Hd Hlen.
  assert (Hs : is_Some (match_here rating_regex (d +:+ "/10" +:+ after) pos)).
  { unfold match_here, rating_regex. cbn [rmatch].
    apply rrepeat_complete; try assumption; try lia.
    - intros h [= <-]. lia.
    - cbn. eauto. }
  destruct Hs as [m Hm]. exists m. split; [assumption|].
  destruct (match_here_rating_sound _ _ _ Hm) as (d' & after' & Heq & Hd' & _ & Hg).
  destruct (digits_slash_unique _ _ _ _ Heq Hd Hd') as [-> _]. assumption.
Qed.

Lemma nonempty_length (d : str) : (1 <= str_len d)%nat -> d <> SEmpty.
Proof. destruct d; simpl; [lia | discriminate]. Qed.

(** The search for the rating pattern, as occurrences. *)
Lemma search_rating_found (text : str) (m : match_obj) :
  re_search rating_regex text = Some m ->
  exists i n, rating_occurs_at text i n /\
              (forall j k, (j < i)%nat -> ~ rating_occurs_at text j k) /\
              group 1 m ≫= py_int = Some n.
Proof.
  intros H. apply search_from_Some in H as (before & rest & -> & Hm & Hmin).
  destruct (match_here_rating_sound _ _ _ Hm) as (d & after & -> & Hd & Hlen & Hg).
  exists (str_len before), (number d). split; [|split].
  - exists before, d, after. auto.
  - intros j k Hj (b' & d' & a' & Heq & <- & Hlen' & Hd' & _).
    specialize (Hmin _ _ Heq Hj).
    destruct (match_here_rating_complete d' a' (0 + str_len b') Hd' Hlen')
      as (m' & Hm' & _).
    congruence.
  - rewrite Hg. simpl. apply py_int_digits; [assumption|].
    apply nonempty_length; lia.
Qed.

Lemma search_rating_none (text : str) :
  re_search rating_regex text = None -> forall i n, ~ rating_occurs_at text i n.
Proof.
  intros H i n (before & d & after & Heq & <- & Hlen & Hd & _).
  pose proof (search_from_None _ _ _ H _ _ Heq) as Hn.
  destruct (match_here_rating_complete d after (0 + str_len before) Hd Hlen)
    as (m & Hm & _).
  congruence.
Qed.

(** Two occurrences at one offset denote the same number. *)
Lemma rating_occurs_at_unique (text : str) (i : nat) (n n' : Z) :
  rating_occurs_at text i n -> rating_occurs_at text i n' -> n = n'.
Proof.
  intros (b & d & a & -> & <- & _ & Hd & <-) (b' & d' & a' & Heq & Hl & _ & Hd' & <-).
  apply app_inv_length in Heq as [_ Heq]; [|now symmetry].
  destruct (digits_slash_unique _ _ _ _ Heq Hd Hd') as [-> _]. reflexivity.
Qed.

(** ** Substrings, [split] and [strip] *)

Lemma occurs_at_0 (sub s : str) : occurs_at sub s 0 <-> startswith sub s = true.
Proof.
  split.
  - intros (b & a & -> & Hl). destruct b; [|discriminate]. simpl. apply startswith_app.
  - intros H. apply startswith_inv in H as [rest ->]. now exists SEmpty, rest.
Qed.

Lemma occurs_at_S (sub : str) (c : N) (s : str) (i : nat) :
  occurs_at sub (SChar c s) (S i) <-> occurs_at sub s i.
Proof.
  split.
  - intros (b & a & Heq & Hl). destruct b as [|c' b]; [discriminate|].
    simpl in *. injection Heq as <- ->. injection Hl as <-. now exists b, a.
  - intros (b & a & -> & <-). now exists (SChar c b), a.
Qed.

Lemma contains_true (sub s : str) :
  contains sub s = true <-> exists i, occurs_at sub s i.
Proof.
  induction s as [|c s IH]; simpl.
  - destruct (startswith sub SEmpty) eqn:E.
    + split; [|reflexivity]. intros _. exists O. now apply occurs_at_0.
    + split; [discriminate|]. intros [[|i] H].
      * apply occurs_at_0 in H. congruence.
      * destruct H as (b & a & Heq & Hl). destruct b; discriminate.
  - destruct (startswith sub (SChar c s)) eqn:E.
    + split; [|reflexivity]. intros _. exists O. now apply occurs_at_0.
    + rewrite IH. split.
      * intros [i H]. exists (S i). now apply occurs_at_S.
      * intros [[|i] H].
        -- apply occurs_at_0 in H. congruence.
        -- exists i. now apply occurs_at_S in H.
Qed.

Lemma contains_false (sub s : str) :
  contains sub s = false <-> forall i, ~ occurs_at sub s i.
Proof.
  split.
  - intros H i Hi. assert (contains sub s = true) by (apply contains_true; eauto).
    congruence.
  - intros H. destruct (contains sub s) eqn:E; [|reflexivity].
    apply contains_true in E as [i Hi]. now destruct (H i).
Qed.

Lemma split1_startswith (sep s : str) :
  startswith sep s = true ->
  split1 sep s = [SEmpty; drop_str (str_len sep) s].
Proof. intros H. destruct s; simpl; now rewrite H. Qed.

(** [split(sep, 1)] cuts at the first occurrence of the separator. *)
Lemma split1_first (sep after : str) : forall before,
  (forall j, (j < str_len before)%nat ->
             ~ occurs_at sep (before +:+ sep +:+ after) j) ->
  split1 sep (before +:+ sep +:+ after) = [before; after].
Proof.
  induction before as [|c b IH]; intros Hmin.
  - cbn [str_app]. rewrite split1_startswith by apply startswith_app.
    now rewrite drop_app_length.
  - cbn [str_app split1].
    destruct (startswith sep (SChar c (b +:+ sep +:+ after))) eqn:E.
    + apply occurs_at_0 in E. destruct (Hmin O); [simpl; lia | exact E].
    + rewrite IH; [reflexivity|].
      intros j Hj Hocc. apply (Hmin (S j)); [simpl; lia|].
      now apply occurs_at_S.
Qed.

Lemma split1_no_occurrence (sep s : str) :
  contains sep s = false -> split1 sep s = [s].
Proof.
  induction s as [|c s IH]; simpl; intros H.
  - now destruct (startswith sep SEmpty).
  - destruct (startswith sep (SChar c s)); [discriminate|]. now rewrite IH.
Qed.

(** Where [sub in s] holds, [s.split(sub, 1)] has an element at index 1. *)
Lemma split1_contains (sep s : str) :
  contains sep s = true -> exists before after, split1 sep s = [before; after].
Proof.
  induction s as [|c s IH]; simpl; intros H.
  - destruct (startswith sep SEmpty); [eauto | discriminate].
  - destruct (startswith sep (SChar c s)); [eauto|].
    destruct (IH H) as (b & a & ->). eauto.
Qed.

Lemma lstrip_spec (s : str) :
  exists l, s = l +:+ lstrip s /\ all_str is_space l = true /\
            first_char_space (lstrip s) = false.
Proof.
  induction s as [|c s (l & IH & Hl & Hf)]; simpl.
  - now exists SEmpty.
  - destruct (is_space c) eqn:E.
    + exists (SChar c l). simpl. rewrite E, Hl. now rewrite <- IH.
    + exists SEmpty. simpl. auto.
Qed.

Lemma rstrip_spec (s : str) :
  exists r, s = rstrip s +:+ r /\ all_str is_space r = true /\
            last_char_space (rstrip s) = false.
Proof.
  induction s as [|c s (r & IH & Hr & Hl)]; simpl.
  - now exists SEmpty.
  - destruct (rstrip s) as [|d t] eqn:E.
    + simpl in IH. subst r. destruct (is_space c) eqn:Ec.
      * exists (SChar c s). simpl. now rewrite Ec, Hr.
      * exists s. simpl. now rewrite Ec.
    + exists r. simpl. rewrite IH at 1. split; [reflexivity|]. split; [assumption|].
      exact Hl.
Qed.

Lemma rstrip_first_char (s : str) :
  first_char_space s = false -> first_char_space (rstrip s) = false.
Proof.
  destruct s as [|c s]; simpl; [reflexivity|]. intros H.
  destruct (rstrip s); [|exact H]. now rewrite H.
Qed.

(** [strip] removes a run of white space at each end, and leaves a text
    that neither begins nor ends with white space. *)
Lemma strip_spec (s : str) :
  exists l r,
    s = l +:+ strip s +:+ r /\ all_str is_space l = true /\ all_str is_space r = true /\
    first_char_space (strip s) = false /\ last_char_space (strip s) = false.
Proof.
  destruct (lstrip_spec s) as (l & Hs & Hl & Hf).
  destruct (rstrip_spec (lstrip s)) as (r & Hs' & Hr & Hlast).
  exists l, r. unfold strip. rewrite <- Hs'.
  repeat split; try assumption. now apply rstrip_first_char.
Qed.

(** A text that neither begins nor ends with white space is left as it is. *)
Lemma strip_fixed (s : str) :
  first_char_space s = false -> last_char_space s = false -> strip s = s.
Proof.
  intros Hf Hl. unfold strip.
  assert (lstrip s = s) as -> by (destruct s; simpl in *; [|rewrite Hf]; reflexivity).
  clear Hf. induction s as [|c s IH]; simpl in *; [reflexivity|].
  destruct s as [|d s].
  - simpl. now rewrite Hl.
  - rewrite (IH Hl). reflexivity.
Qed.

(** ** The response parser: rating and reason *)

Lemma parse_grok_response_eq (text : str) (n : Z) (r : str) :
  match re_search rating_regex text with
  | Some rating_match => group 1 rating_match ≫= py_int
  | None => Some 0
  end = Some n ->
  (if contains "Reason:" text
   then strip <$> (split1 "Reason:" text !! 1%nat)
   else Some text) = Some r ->
  parse_grok_response text = Some (Evaluation n r).
Proof. intros H1 H2. unfold parse_grok_response. now rewrite H1, H2. Qed.

Lemma parse_rating_part (text : str) :
  exists n,
    match re_search rating_regex text with
    | Some rating_match => group 1 rating_match ≫= py_int
    | None => Some 0
    end = Some n.
Proof.
  destruct (re_search rating_regex text) as [m|] eqn:E; [|eauto].
  destruct (search_rating_found _ _ E) as (i & n & _ & _ & H). eauto.
Qed.

Lemma parse_reason_part (text : str) :
  exists r,
    (if contains "Reason:" text
     then strip <$> (split1 "Reason:" text !! 1%nat)
     else Some text) = Some r.
Proof.
  destruct (contains "Reason:" text) eqn:E; [|eauto].
  destruct (split1_contains _ _ E) as (b & a & ->). simpl. eauto.
Qed.

(** The parser raises on no text: it returns a rating and a reason. *)
Lemma parse_grok_response_total (text : str) :
  exists e, parse_grok_response text = Some e.
Proof.
  destruct (parse_rating_part text) as [n Hn].
  destruct (parse_reason_part text) as [r Hr].
  exists (Evaluation n r). now apply parse_grok_response_eq.
Qed.

(** ** Running the monad *)

Lemma bind_inr {A B : Type} (m : M A) (f : A -> M B) (st st' : state) (x : A) :
  m st = (inr x, st') -> (m ≫= f) st = f x st'.
Proof. intros H. unfold mbind, M_bind. now rewrite H. Qed.

Lemma bind_run {A B : Type} (m : M A) (f : A -> M B) (st st' : state) (x : A)
    (r : (exn + B) * state) :
  m st = (inr x, st') -> f x st' = r -> (m ≫= f) st = r.
Proof. intros H <-. now apply bind_inr. Qed.

Lemma bind_inl {A B : Type} (m : M A) (f : A -> M B) (st st' : state) (e : exn) :
  m st = (inl e, st') -> (m ≫= f) st = (inl e, st').
Proof. intros H. unfold mbind, M_bind. now rewrite H. Qed.

Lemma evaluation_for_total (response : http_response) :
  exists e, evaluation_for response = Some e.
Proof.
  unfold evaluation_for. destruct (status_code response =? 200); [|eauto].
  apply parse_grok_response_total.
Qed.

Lemma evaluate_run (name : str) (response : http_response) (st : state) (e : evaluation) :
  evaluation_for response = Some e ->
  evaluate_candidate_with_grok name response st =
    (inr e, State (df st) (sheet_header st)
                  (trace st ++ [StWrite (evaluation_message name response e)])).
Proof.
  unfold evaluation_for, evaluate_candidate_with_grok, evaluation_message.
  destruct (status_code response =? 200); intros H.
  - rewrite H. reflexivity.
  - injection H as <-. reflexivity.
Qed.

(** The call returns for every response, and changes nothing but the
    operator's display. *)
Lemma evaluate_returns (name : str) (response : http_response) (st : state) :
  exists e, evaluate_candidate_with_grok name response st =
    (inr e, State (df st) (sheet_header st)
                  (trace st ++ [StWrite (evaluation_message name response e)])).
Proof.
  destruct (evaluation_for_total response) as [e He].
  exists e. now apply evaluate_run.
Qed.

Lemma evaluate_inv (name : str) (response : http_response) (st st1 : state)
    (e : evaluation) :
  evaluate_candidate_with_grok name response st = (inr e, st1) ->
  evaluation_for response = Some e.
Proof.
  destruct (evaluation_for_total response) as [e' He'].
  rewrite (evaluate_run _ _ _ _ He'). now intros [= <- _].
Qed.

Lemma df_at_get_run (st : state) (idx : nat) (col : str)
    (row : gmap str value) (v : value) :
  df st !! idx = Some row -> row !! col = Some v -> df_at_get idx col st = (inr v, st).
Proof. intros H1 H2. unfold df_at_get. rewrite H1. simpl. now rewrite H2. Qed.

Lemma persist_run (header : list str) (st : state) (idx : nat) (col : str)
    (c : nat) (row : gmap str value) (v : value) :
  list_index col header = Some c ->
  df st !! idx = Some row -> row !! col = Some v ->
  persist header idx col st =
    (inr tt, State (df st) (sheet_header st)
                   (trace st ++ [UpdateCell (Z.of_nat idx + 2) (Z.of_nat c + 1) v])).
Proof.
  intros Hc Hrow Hv. unfold persist, from_option. rewrite Hc.
  rewrite (bind_inr _ _ st st c) by reflexivity.
  rewrite (bind_inr _ _ st st v) by (eapply df_at_get_run; eassumption).
  unfold update_cell.
  replace (Z.of_nat idx + 2 =? 1) with false by (symmetry; apply Z.eqb_neq; lia).
  reflexivity.
Qed.

(** ** One candidate *)

Lemma send_email_run (email subj body : str) (smtp : option str) (st : state) :
  send_email email subj body smtp st =
    (inr (send_message email smtp),
     State (df st) (sheet_header st) (trace st ++ [SmtpSend email subj body])).
Proof. now destruct smtp. Qed.

Tactic Notation "step" "by" tactic3(t) :=
  (erewrite bind_inr by t); cbv beta; cbn [df sheet_header trace].
Tactic Notation "step" := step by reflexivity.

Section Candidate.
Variables (cd : cohort) (subj : str) (header : list str) (idx : nat).
Variables (candidate : gmap str str) (w : outcomes) (st : state).
Variables (name : str) (e : evaluation).
Hypothesis Hname : candidate !! "Applicant Name" = Some name.
Hypothesis Heval : evaluation_for (evaluation_response w) = Some e.

Let evaluated : event := StWrite (evaluation_message name (evaluation_response w) e).

(** Rating at or above the minimum, valid address: the mail is sent and
    the three cells are written. *)
Lemma process_selected (row : gmap str value) (cs cr cg : nat) :
  df st !! idx = Some row ->
  list_index "Status" header = Some cs ->
  list_index "Evaluation Reason" header = Some cr ->
  list_index "Rating" header = Some cg ->
  email_ok (candidate_email candidate) = true ->
  (rating e >=? min_rating cd) = true ->
  process_candidate cd subj header idx candidate w st =
    (inr tt,
     State (alter (fun r => <["Status" := VStr "Selected and Email Sent"]>
                              (with_evaluation e r)) idx (df st))
           (sheet_header st)
           (trace st ++
              [evaluated;
               SmtpSend (candidate_email candidate) subj
                        (evaluate_and_generate_email (invite_response w));
               StWrite (MsgText (send_message (candidate_email candidate) (smtp_error w)));
               UpdateCell (Z.of_nat idx + 2) (Z.of_nat cs + 1)
                          (VStr "Selected and Email Sent");
               UpdateCell (Z.of_nat idx + 2) (Z.of_nat cr + 1) (VStr (reason e));
               UpdateCell (Z.of_nat idx + 2) (Z.of_nat cg + 1) (VInt (rating e))])).
Proof.
  intros Hrow Hcs Hcr Hcg Hok Hge.
  unfold process_candidate. rewrite Hname, Hok. cbn [from_option].
  step. step by (apply evaluate_run; eassumption).
  step. step. rewrite Hge. step.
  step by (apply send_email_run). step.
  assert (Hrow' :
    alter <["Status":=VStr "Selected and Email Sent"]> idx
      (alter <["Evaluation Reason":=VStr (reason e)]> idx
         (alter <["Rating":=VInt (rating e)]> idx (df st))) !! idx
    = Some (<["Status":=VStr "Selected and Email Sent"]> (with_evaluation e row)))
    by (now rewrite !list_lookup_alter_eq, Hrow).
  step by (eapply persist_run; [eassumption | exact Hrow' | now simplify_map_eq]).
  step by (eapply persist_run;
           [eassumption | exact Hrow' | unfold with_evaluation; now simplify_map_eq]).
  erewrite persist_run;
    [|eassumption | exact Hrow' | unfold with_evaluation; now simplify_map_eq].
  cbn [df sheet_header trace].
  rewrite <- !app_assoc. cbn [app].
  do 2 rewrite list_alter_alter_eq. reflexivity.
Qed.

(** Rating below the minimum, valid address: only the data frame changes. *)
Lemma process_not_selected :
  email_ok (candidate_email candidate) = true ->
  (rating e >=? min_rating cd) = false ->
  process_candidate cd subj header idx candidate w st =
    (inr tt,
     State (alter (fun r => <["Status" := VStr "Not Selected"]>
                              (with_evaluation e r)) idx (df st))
           (sheet_header st)
           (trace st ++ [evaluated])).
Proof.
  intros Hok Hlt.
  unfold process_candidate. rewrite Hname, Hok. cbn [from_option].
  step. step by (apply evaluate_run; eassumption).
  step. step. rewrite Hlt. unfold df_at_set. cbn [df sheet_header trace].
  do 2 rewrite list_alter_alter_eq. reflexivity.
Qed.

(** Address that fails the check: a warning, whatever the rating. *)
Lemma process_invalid_email :
  email_ok (candidate_email candidate) = false ->
  process_candidate cd subj header idx candidate w st =
    (inr tt,
     State (alter (with_evaluation e) idx (df st))
           (sheet_header st)
           (trace st ++ [evaluated;
              StWarning ("Invalid or missing email for " +:+ name +:+ ".")])).
Proof.
  intros Hok.
  unfold process_candidate. rewrite Hname, Hok. cbn [from_option].
  step. step by (apply evaluate_run; eassumption).
  step. step. unfold emit. cbn [df sheet_header trace default].
  rewrite list_alter_alter_eq, <- app_assoc. reflexivity.
Qed.
End Candidate.

(** No [Applicant Name] column: [KeyError], right after the invitation
    request. *)
Lemma process_no_name (cd : cohort) (subj : str) (header : list str) (idx : nat)
    (candidate : gmap str str) (w : outcomes) (st : state) :
  candidate !! "Applicant Name" = None ->
  process_candidate cd subj header idx candidate w st =
    (inl (KeyError "Applicant Name"), st).
Proof. intros H. unfold process_candidate. now rewrite H. Qed.

(** ** The header row *)

Lemma list_index_mem (col : str) (header : list str) :
  list_mem col header = true -> exists c, list_index col header = Some c.
Proof.
  induction header as [|h t IH]; simpl; [discriminate|].
  rewrite (str_eqb_sym col h). destruct (str_eqb h col); [eauto|].
  simpl. intros H. destruct (IH H) as [c ->]. simpl. eauto.
Qed.

Lemma list_mem_app (col : str) (l1 l2 : list str) :
  list_mem col (l1 ++ l2) = list_mem col l1 || list_mem col l2.
Proof. unfold list_mem. apply existsb_app. Qed.

Lemma set_header_cell_end (col : str) (header : list str) :
  set_header_cell (length header) col header = header ++ [col].
Proof.
  unfold set_header_cell.
  replace (S (length header) - length header)%nat with 1%nat by lia.
  simpl. rewrite insert_app_r_alt by lia.
  now replace (length header - length header)%nat with O by lia.
Qed.

Lemma add_missing_column_run (col : str) (st : state) :
  add_missing_column col (sheet_header st) st =
    (inr (ensure col (sheet_header st)),
     State (df st) (ensure col (sheet_header st))
           (trace st ++ ensure_events col (sheet_header st))).
Proof.
  unfold add_missing_column, ensure, ensure_events.
  destruct (list_mem col (sheet_header st)).
  - unfold mret, M_ret. rewrite app_nil_r. now destruct st.
  - step. unfold update_cell. step by reflexivity.
    unfold mret, M_ret.
    replace (1 <=? Z.of_nat (length (sheet_header st)) + 1) with true
      by (symmetry; apply Z.leb_le; lia).
    cbn [Z.eqb Pos.eqb andb value_text].
    replace (Z.to_nat (Z.of_nat (length (sheet_header st)) + 1 - 1))
      with (length (sheet_header st)) by lia.
    rewrite set_header_cell_end, <- app_assoc. reflexivity.
Qed.

Lemma add_missing_columns_run (st : state) :
  add_missing_columns st =
    (inr tt,
     State (df st) (with_columns (sheet_header st))
           (trace st ++ columns_events (sheet_header st))).
Proof.
  unfold add_missing_columns, missing_columns. cbn [foldl].
  unfold row_values_1. step.
  pose proof (add_missing_column_run "Status" st) as H1.
  set (st1 := State (df st) (ensure "Status" (sheet_header st))
                    (trace st ++ ensure_events "Status" (sheet_header st))) in *.
  pose proof (add_missing_column_run "Evaluation Reason" st1) as H2.
  set (st2 := State (df st1) (ensure "Evaluation Reason" (sheet_header st1))
                    (trace st1 ++ ensure_events "Evaluation Reason" (sheet_header st1))) in *.
  pose proof (add_missing_column_run "Rating" st2) as H3.
  step by (eapply bind_run;
           [eapply bind_run; [eapply bind_run; [reflexivity|exact H1] | exact H2] | exact H3]).
  unfold mret, M_ret, with_columns, columns_events. subst st2 st1.
  cbn [df sheet_header trace]. now rewrite <- !app_assoc.
Qed.

Lemma ensure_mem (col : str) (header : list str) :
  list_mem col (ensure col header) = true.
Proof.
  unfold ensure. destruct (list_mem col header) eqn:E; [assumption|].
  rewrite list_mem_app. simpl. rewrite str_eqb_refl. apply orb_true_r.
Qed.

Lemma ensure_keeps (col c : str) (header : list str) :
  list_mem c header = true -> list_mem c (ensure col header) = true.
Proof.
  unfold ensure. intros H. destruct (list_mem col header); [assumption|].
  rewrite list_mem_app, H. reflexivity.
Qed.

(** After [add_missing_columns] the header names the three columns. *)
Lemma with_columns_index (header : list str) :
  exists cs cr cg,
    list_index "Status" (with_columns header) = Some cs /\
    list_index "Evaluation Reason" (with_columns header) = Some cr /\
    list_index "Rating" (with_columns header) = Some cg.
Proof.
  unfold with_columns.
  set (h1 := ensure "Status" header).
  set (h2 := ensure "Evaluation Reason" h1).
  assert (H1 : list_mem "Status" h1 = true) by apply ensure_mem.
  assert (H2 : list_mem "Evaluation Reason" h2 = true) by apply ensure_mem.
  apply (ensure_keeps "Evaluation Reason") in H1. fold h2 in H1.
  apply (ensure_keeps "Rating") in H1, H2.
  destruct (list_index_mem _ _ H1) as [cs Hcs].
  destruct (list_index_mem _ _ H2) as [cr Hcr].
  destruct (list_index_mem _ _ (ensure_mem "Rating" h2)) as [cg Hcg].
  eauto 10.
Qed.

(** ** The loop *)

Section Loop.
Variables (cd : cohort) (subj : str) (header : list str).
Variables (world : nat -> outcomes) (cs cr cg : nat).
Hypothesis Hcs : list_index "Status" header = Some cs.
Hypothesis Hcr : list_index "Evaluation Reason" header = Some cr.
Hypothesis Hcg : list_index "Rating" header = Some cg.

(** A turn of the loop on a named candidate whose row exists returns,
    leaves [processed_row] at the candidate's index and does
    [candidate_events]. *)
Lemma process_candidate_ok (idx : nat) (candidate : gmap str str)
    (w : outcomes) (st : state) (name : str) :
  candidate !! "Applicant Name" = Some name ->
  is_Some (df st !! idx) ->
  exists e,
    evaluation_for (evaluation_response w) = Some e /\
    process_candidate cd subj header idx candidate w st =
      (inr tt, State (alter (processed_row cd candidate e) idx (df st))
                     (sheet_header st)
                     (trace st ++ candidate_events cd subj header idx candidate w name e)).
Proof.
  intros Hname [row Hrow].
  destruct (evaluation_for_total (evaluation_response w)) as [e He].
  exists e. split; [assumption|]. unfold processed_row, candidate_events, column.
  rewrite Hcs, Hcr, Hcg. cbn [default].
  destruct (email_ok (candidate_email candidate)) eqn:Hok.
  - destruct (rating e >=? min_rating cd) eqn:Hge.
    + eapply process_selected; eassumption.
    + eapply process_not_selected; eassumption.
  - eapply process_invalid_email; eassumption.
Qed.

Lemma iterrows_run (rows : list (gmap str str)) : forall idx st,
  (forall c, In c rows -> is_Some (c !! "Applicant Name")) ->
  (idx + length rows <= length (df st))%nat ->
  exists st',
    iterrows cd subj header world idx rows st = (inr tt, st') /\
    sheet_header st' = sheet_header st /\
    length (df st') = length (df st) /\
    trace st' = trace st ++ loop_events cd subj header world idx rows /\
    (forall j, (j < idx)%nat \/ (idx + length rows <= j)%nat ->
               df st' !! j = df st !! j) /\
    (forall k c row,
        rows !! k = Some c -> df st !! (idx + k)%nat = Some row ->
        exists e,
          evaluation_for (evaluation_response (world (idx + k)%nat)) = Some e /\
          df st' !! (idx + k)%nat = Some (processed_row cd c e row)).
Proof.
  induction rows as [|c rest IH]; intros idx st Hnames Hlen.
  - exists st. cbn [iterrows loop_events]. rewrite app_nil_r. repeat split; auto.
    intros k c row Hk. now rewrite lookup_nil in Hk.
  - cbn [iterrows length loop_events] in *.
    assert (Hrow : is_Some (df st !! idx)) by (apply lookup_lt_is_Some; lia).
    destruct (Hnames c (or_introl eq_refl)) as [name Hname].
    destruct (process_candidate_ok idx c (world idx) st name Hname Hrow)
      as (e & He & Hrun).
    rewrite Hname, He.
    set (st1 := State (alter (processed_row cd c e) idx (df st)) (sheet_header st)
                  (trace st ++ candidate_events cd subj header idx c (world idx) name e))
      in *.
    destruct (IH (S idx) st1) as (st' & Hit & Hh & Hl & Ht & Hout & Hin).
    { intros c' Hc'. apply Hnames. now right. }
    { subst st1. cbn [df]. rewrite length_alter. lia. }
    exists st'. split; [|split; [|split; [|split; [|split]]]].
    + step by exact Hrun. exact Hit.
    + rewrite Hh. reflexivity.
    + rewrite Hl. subst st1. cbn [df]. apply length_alter.
    + rewrite Ht. subst st1. cbn [trace]. now rewrite app_assoc.
    + intros j Hj. rewrite Hout by lia. subst st1. cbn [df].
      apply list_lookup_alter_ne. lia.
    + intros [|k] c' row Hk Hr.
      * injection Hk as <-. rewrite Nat.add_0_r in *.
        exists e. split; [assumption|].
        rewrite Hout by lia. subst st1. cbn [df].
        now rewrite list_lookup_alter_eq, Hr.
      * cbn in Hk. replace (idx + S k)%nat with (S idx + k)%nat in * by lia.
        apply (Hin k c' row Hk). subst st1. cbn [df].
        rewrite list_lookup_alter_ne by lia. exact Hr.
Qed.
End Loop.

(** Each action of the loop is an action of the turn of one row. *)
Lemma loop_events_In (cd : cohort) (subj : str) (header : list str)
    (world : nat -> outcomes) (ev : event) (rows : list (gmap str str)) :
  forall idx,
    In ev (loop_events cd subj header world idx rows) ->
    exists k candidate name e,
      rows !! k = Some candidate /\
      candidate !! "Applicant Name" = Some name /\
      evaluation_for (evaluation_response (world (idx + k)%nat)) = Some e /\
      In ev (candidate_events cd subj header (idx + k) candidate
               (world (idx + k)%nat) name e).
Proof.
  induction rows as [|c rest IH]; intros idx Hin; cbn [loop_events] in Hin.
  - destruct Hin.
  - destruct (c !! "Applicant Name") as [name|] eqn:Hname; [|destruct Hin].
    destruct (evaluation_for (evaluation_response (world idx))) as [e|] eqn:He;
      [|destruct Hin].
    apply in_app_or in Hin as [Hin|Hin].
    + exists O, c, name, e. rewrite Nat.add_0_r. auto.
    + destruct (IH _ Hin) as (k & c' & name' & e' & Hk & Hn & He' & Hin').
      exists (S k), c', name', e'.
      replace (idx + S k)%nat with (S idx + k)%nat by lia. auto.
Qed.

(** ** A whole run *)

Lemma data_frame_lookup (data : list (gmap str str)) (idx : nat) :
  data_frame data !! idx = (fun record : gmap str str => VStr <$> record) <$> data !! idx.
Proof. unfold data_frame. apply list_lookup_fmap. Qed.

Lemma main_try_run (cd : cohort) (subj : str)
    (data : list (gmap str str)) (world : nat -> outcomes) (st0 : state) :
  (forall c, In c data -> is_Some (c !! "Applicant Name")) ->
  exists st,
    main_try cd subj data world st0 = (inr tt, st) /\
    length (df st) = length data /\
    trace st =
      trace st0 ++ columns_events (sheet_header st0)
      ++ [StWrite (MsgText "Evaluating candidates...")]
      ++ loop_events cd subj (with_columns (sheet_header st0)) world 0 data
      ++ [StSuccess "Process completed!"] /\
    (forall idx c, data !! idx = Some c ->
       exists e,
         evaluation_for (evaluation_response (world idx)) = Some e /\
         df st !! idx = Some (processed_row cd c e (VStr <$> c))).
Proof.
  intros Hnames. unfold main_try.
  destruct (with_columns_index (sheet_header st0)) as (cs & cr & cg & Hcs & Hcr & Hcg).
  set (st1 := State (data_frame data) (with_columns (sheet_header st0))
                    ((trace st0 ++ columns_events (sheet_header st0)) ++
                     [StWrite (MsgText "Evaluating candidates...")])).
  destruct (iterrows_run cd subj (with_columns (sheet_header st0)) world cs cr cg
              Hcs Hcr Hcg data 0%nat st1)
    as (st' & Hit & Hh & Hl & Ht & Hout & Hin).
  { assumption. }
  { subst st1. cbn [df]. unfold data_frame. rewrite length_fmap. simpl. lia. }
  eexists. split.
  - step. cbn [set_df df sheet_header trace].
    step by (apply add_missing_columns_run).
    step. step. step by exact Hit. reflexivity.
  - cbn [df sheet_header trace]. split; [|split].
    + rewrite Hl. subst st1. cbn [df]. unfold data_frame. now rewrite length_fmap.
    + rewrite Ht. subst st1. cbn [trace]. now rewrite <- !app_assoc.
    + intros idx c Hc.
      destruct (Hin idx c (VStr <$> c) Hc) as (e & He & Hdf).
      * subst st1. cbn [df]. rewrite data_frame_lookup. simpl. now rewrite Hc.
      * exists e. now split.
Qed.

(** When every record has an [Applicant Name], the run reaches its end:
    what it does to the outside is what [add_missing_columns] and the
    turns of the loop do, between the messages of [main], and each row of
    the data frame is the [processed_row] of its record. *)
Lemma main_completes (cd : cohort) (subj : str) (header0 : list str)
    (data : list (gmap str str)) (world : nat -> outcomes) :
  (forall c, In c data -> is_Some (c !! "Applicant Name")) ->
  length (df (main cd subj header0 data world)) = length data /\
  trace (main cd subj header0 data world) =
    [StWrite (MsgText "Fetching data from Google Sheets...")]
    ++ columns_events header0
    ++ [StWrite (MsgText "Evaluating candidates...")]
    ++ loop_events cd subj (with_columns header0) world 0 data
    ++ [StSuccess "Process completed!"] /\
  (forall idx c, data !! idx = Some c ->
     exists e,
       evaluation_for (evaluation_response (world idx)) = Some e /\
       df (main cd subj header0 data world) !! idx
       = Some (processed_row cd c e (VStr <$> c))).
Proof.
  intros Hnames. unfold main.
  destruct (main_try_run cd subj data world
              (State [] header0 [StWrite (MsgText "Fetching data from Google Sheets...")])
              Hnames) as (st & -> & Hl & Ht & Hrows).
  split; [assumption|]. split; [|assumption]. exact Ht.
Qed.

(** [add_missing_columns] adds columns and writes in row 1, nothing else. *)
Lemma columns_events_In (header : list str) (ev : event) :
  In ev (columns_events header) ->
  ev = AddCols 1 \/ exists c v, ev = UpdateCell 1 c v.
Proof.
  assert (H : forall col h, In ev (ensure_events col h) ->
                ev = AddCols 1 \/ exists c v, ev = UpdateCell 1 c v).
  { intros col h. unfold ensure_events. destruct (list_mem col h); simpl.
    - intros [].
    - intros [<-|[<-|[]]]; eauto. }
  unfold columns_events. intros Hin.
  apply in_app_or in Hin as [Hin|Hin]; [eauto|].
  apply in_app_or in Hin as [Hin|Hin]; eauto.
Qed.

(** In a whole run, a mail is handed to SMTP only for a candidate whose
    rating is at least the minimum and whose address passes the check,
    and it goes to that address. *)
Lemma mail_only_to_selected (cd : cohort) (subj : str) (header0 : list str)
    (data : list (gmap str str)) (world : nat -> outcomes)
    (to subject body : str) :
  (forall c, In c data -> is_Some (c !! "Applicant Name")) ->
  In (SmtpSend to subject body) (trace (main cd subj header0 data world)) ->
  exists idx candidate e,
    data !! idx = Some candidate /\
    evaluation_for (evaluation_response (world idx)) = Some e /\
    rating e >= min_rating cd /\
    email_ok (candidate_email candidate) = true /\
    to = candidate_email candidate /\ subject = subj /\
    body = evaluate_and_generate_email (invite_response (world idx)).
Proof.
  intros Hnames Hin.
  destruct (main_completes cd subj header0 data world Hnames) as (_ & Ht & _).
  rewrite Ht in Hin. clear Ht.
  apply in_app_or in Hin as [Hin|Hin]; [destruct Hin as [Hin|[]]; discriminate|].
  apply in_app_or in Hin as [Hin|Hin].
  { apply columns_events_In in Hin as [H|(c & v & H)]; discriminate. }
  apply in_app_or in Hin as [Hin|Hin]; [destruct Hin as [Hin|[]]; discriminate|].
  apply in_app_or in Hin as [Hin|Hin]; [|destruct Hin as [Hin|[]]; discriminate].
  apply loop_events_In in Hin as (k & c & name & e & Hk & Hname & He & Hin).
  unfold candidate_events in Hin. destruct Hin as [Hin|Hin]; [discriminate|].
  destruct (email_ok (candidate_email c)) eqn:Hok.
  - destruct (rating e >=? min_rating cd) eqn:Hge; [|destruct Hin].
    exists k, c, e. simpl in Hin.
    destruct Hin as [Hin|[Hin|[Hin|[Hin|[Hin|[]]]]]]; try discriminate.
    injection Hin as H1 H2 H3. subst to subject body.
    rewrite Z.geb_leb in Hge. apply Z.leb_le in Hge.
    repeat split; auto. lia.
  - destruct Hin as [Hin|[]]. discriminate.
Qed.







(** * The claims *)

(** ** C2 and C3: the response parser *)

(** C2. When the text has an occurrence of one or two digits followed by
    [/10], [parse_grok_response] returns as rating the number [n] of the
    first occurrence (the one no occurrence starts before), and there is
    such a first occurrence; when the text has no occurrence, it returns
    the rating 0. *)
Theorem parse_rating_first_occurrence (text : str) :
  (forall i n,
      rating_occurs_at text i n ->
      (forall j k, (j < i)%nat -> ~ rating_occurs_at text j k) ->
      exists e, parse_grok_response text = Some e /\ rating e = n) /\
  (forall i n,
      rating_occurs_at text i n ->
      exists i0 n0 e,
        rating_occurs_at text i0 n0 /\
        (forall j k, (j < i0)%nat -> ~ rating_occurs_at text j k) /\
        parse_grok_response text = Some e /\ rating e = n0) /\
  ((forall i n, ~ rating_occurs_at text i n) ->
   exists e, parse_grok_response text = Some e /\ rating e = 0).
Proof.
  destruct (parse_reason_part text) as [r Hr].
  assert (Hfound : forall m, re_search rating_regex text = Some m ->
            exists i0 n0,
              rating_occurs_at text i0 n0 /\
              (forall j k, (j < i0)%nat -> ~ rating_occurs_at text j k) /\
              parse_grok_response text = Some (Evaluation n0 r)).
  { intros m E.
    destruct (search_rating_found _ _ E) as (i0 & n0 & Hocc & Hfirst & Hn).
    exists i0, n0. split; [assumption|]. split; [assumption|].
    apply parse_grok_response_eq; [now rewrite E | assumption]. }
  split; [|split].
  - intros i n Hocc Hfirst.
    destruct (re_search rating_regex text) as [m|] eqn:E.
    + destruct (Hfound m eq_refl) as (i' & n' & Hocc' & Hfirst' & Hparse).
      assert (i' = i) as ->.
      { destruct (Nat.lt_trichotomy i' i) as [Hlt|[Heq|Hgt]]; [|assumption|].
        - now destruct (Hfirst _ _ Hlt Hocc').
        - now destruct (Hfirst' _ _ Hgt Hocc). }
      assert (n' = n) as -> by (eapply rating_occurs_at_unique; eassumption).
      exists (Evaluation n r). now split.
    + now destruct (search_rating_none _ E _ _ Hocc).
  - intros i n Hocc.
    destruct (re_search rating_regex text) as [m|] eqn:E.
    + destruct (Hfound m eq_refl) as (i0 & n0 & Hocc0 & Hfirst0 & Hparse).
      exists i0, n0, (Evaluation n0 r). auto.
    + now destruct (search_rating_none _ E _ _ Hocc).
  - intros Hnone.
    destruct (re_search rating_regex text) as [m|] eqn:E.
    + destruct (search_rating_found _ _ E) as (i' & n' & Hocc' & _).
      now destruct (Hnone _ _ Hocc').
    + exists (Evaluation 0 r). split; [|reflexivity].
      apply parse_grok_response_eq; [now rewrite E | assumption].
Qed.

Lemma occurs_at_startswith (sub : str) : forall (s : str) (j : nat),
  occurs_at sub s j -> startswith sub (drop_str j s) = true.
Proof.
  intros s j (before & after & -> & <-).
  rewrite drop_app_length. apply startswith_app.
Qed.

(** C3, as the code has it. When the text contains the label [Reason:],
    the reason is what follows the first label, stripped of surrounding
    white space; when the text does not contain the label, the reason is
    the text itself, unchanged. *)
Theorem parse_reason_after_label (text : str) :
  (forall before after,
      text = before +:+ "Reason:" +:+ after ->
      (forall j, (j < str_len before)%nat -> ~ occurs_at "Reason:" text j) ->
      exists e, parse_grok_response text = Some e /\ reason e = strip after) /\
  ((forall i, ~ occurs_at "Reason:" text i) ->
   exists e, parse_grok_response text = Some e /\ reason e = text).
Proof.
  destruct (parse_rating_part text) as [n Hn]. split.
  - intros before after -> Hfirst.
    exists (Evaluation n (strip after)). split; [|reflexivity].
    apply parse_grok_response_eq; [assumption|].
    assert (contains "Reason:" (before +:+ "Reason:" +:+ after) = true) as ->.
    { apply contains_true. exists (str_len before), before, after. now split. }
    now rewrite split1_first.
  - intros Hnone. apply contains_false in Hnone.
    exists (Evaluation n text). split; [|reflexivity].
    apply parse_grok_response_eq; [assumption|]. now rewrite Hnone.
Qed.

(** ** C1, C4, C7 to C10: one candidate *)

Lemma geb_true (a b : Z) : a >= b -> (a >=? b) = true.
Proof. intros H. rewrite Z.geb_leb. apply Z.leb_le. lia. Qed.

Lemma geb_false (a b : Z) : a < b -> (a >=? b) = false.
Proof. intros H. rewrite Z.geb_leb. apply Z.leb_gt. lia. Qed.

Lemma status_after_alter (f : gmap str value -> gmap str value)
    (rows : list (gmap str value)) (idx : nat) (row : gmap str value) :
  rows !! idx = Some row ->
  alter f idx rows !! idx ≫= (.!! "Status") = f row !! "Status".
Proof. intros H. now rewrite list_lookup_alter_eq, H. Qed.


(** C4, as the code has it. A candidate whose rating is below the
    configured minimum causes no send attempt and no write to the
    worksheet.  The Status becomes [Not Selected] when the stripped
    [Emails] field passes the check; when it does not, the Status of the
    row is left as it was. *)
Theorem low_rating_not_selected (cd : cohort) (subj : str)
    (header : list str) (idx : nat) (candidate : gmap str str)
    (w : outcomes) (st st1 : state) (name : str) (e : evaluation)
    (row : gmap str value) :
  candidate !! "Applicant Name" = Some name ->
  evaluate_candidate_with_grok name (evaluation_response w) st = (inr e, st1) ->
  df st !! idx = Some row ->
  rating e < min_rating cd ->
  exists st' evs,
    process_candidate cd subj header idx candidate w st = (inr tt, st') /\
    trace st' = trace st ++ evs /\
    smtp_sends evs = [] /\
    store_writes evs = [] /\
    df st' !! idx ≫= (.!! "Status") =
      if email_ok (candidate_email candidate)
      then Some (VStr "Not Selected") else row !! "Status".
Proof.
  intros Hname Heval Hrow Hlt.
  apply evaluate_inv in Heval. apply geb_false in Hlt.
  destruct (email_ok (candidate_email candidate)) eqn:Hok.
  - eexists. eexists. split; [|split; [|split; [|split]]].
    + eapply process_not_selected; eassumption.
    + reflexivity.
    + reflexivity.
    + reflexivity.
    + cbn [df]. rewrite (status_after_alter _ _ _ _ Hrow). now simplify_map_eq.
  - eexists. eexists. split; [|split; [|split; [|split]]].
    + eapply process_invalid_email; eassumption.
    + reflexivity.
    + reflexivity.
    + reflexivity.
    + cbn [df]. rewrite (status_after_alter _ _ _ _ Hrow).
      unfold with_evaluation. now simplify_map_eq.
Qed.


(** C8. When the invitation request is answered with a status other than
    200, while the evaluation succeeds with a rating at least the minimum
    and the address is valid, the candidate is selected all the same, and
    the body handed to [send_email] is the fallback text, as it is. *)
Theorem generation_failure_sends_fallback (cd : cohort) (subj : str)
    (header : list str) (idx : nat) (candidate : gmap str str)
    (w : outcomes) (st : state) (name : str) (e : evaluation)
    (row : gmap str value) (cs cr cg : nat) :
  status_code (invite_response w) <> 200 ->
  status_code (evaluation_response w) = 200 ->
  parse_grok_response (content (evaluation_response w)) = Some e ->
  rating e >= min_rating cd ->
  email_ok (candidate_email candidate) = true ->
  candidate !! "Applicant Name" = Some name ->
  df st !! idx = Some row ->
  list_index "Status" header = Some cs ->
  list_index "Evaluation Reason" header = Some cr ->
  list_index "Rating" header = Some cg ->
  exists st' evs,
    process_candidate cd subj header idx candidate w st = (inr tt, st') /\
    df st' !! idx ≫= (.!! "Status") = Some (VStr "Selected and Email Sent") /\
    trace st' = trace st ++ evs /\
    smtp_sends evs =
      [SmtpSend (candidate_email candidate) subj "Error in generating email content."].
Proof.
  intros Hgen Hstatus Hparse Hge Hok Hname Hrow Hcs Hcr Hcg.
  assert (Heval : evaluation_for (evaluation_response w) = Some e).
  { unfold evaluation_for. now rewrite Hstatus. }
  assert (Hbody : evaluate_and_generate_email (invite_response w)
                  = "Error in generating email content.").
  { unfold evaluate_and_generate_email.
    now destruct (Z.eqb_spec (status_code (invite_response w)) 200). }
  apply geb_true in Hge.
  eexists. eexists. split; [|split; [|split]].
  - eapply process_selected; eassumption.
  - cbn [df]. rewrite (status_after_alter _ _ _ _ Hrow). now simplify_map_eq.
  - reflexivity.
  - rewrite Hbody. reflexivity.
Qed.

(** C9. With a configured minimum of at least 1, a candidate whose
    evaluation request is answered with a status other than 200 gets the
    rating 0 and the fixed reason, and processing that candidate hands no
    mail to SMTP and writes no cell of the worksheet. *)
Theorem evaluation_failure_never_sends (cd : cohort) (subj : str)
    (header : list str) (idx : nat) (candidate : gmap str str)
    (w : outcomes) (st : state) :
  1 <= min_rating cd ->
  status_code (evaluation_response w) <> 200 ->
  (forall name st0,
     fst (evaluate_candidate_with_grok name (evaluation_response w) st0)
     = inr (Evaluation 0 "Error in retrieving data")) /\
  exists evs,
    trace (snd (process_candidate cd subj header idx candidate w st))
    = trace st ++ evs /\
    smtp_sends evs = [] /\
    store_writes evs = [].
Proof.
  intros Hmin Hstatus.
  assert (Heval : evaluation_for (evaluation_response w)
                  = Some (Evaluation 0 "Error in retrieving data")).
  { unfold evaluation_for.
    now destruct (Z.eqb_spec (status_code (evaluation_response w)) 200). }
  split.
  - intros name st0. now rewrite (evaluate_run _ _ _ _ Heval).
  - destruct (candidate !! "Applicant Name") as [name|] eqn:Hname.
    + destruct (email_ok (candidate_email candidate)) eqn:Hok.
      * erewrite process_not_selected; try eassumption.
        -- eexists. split; [reflexivity|]. now split.
        -- apply geb_false. simpl. lia.
      * erewrite process_invalid_email; try eassumption.
        eexists. split; [reflexivity|]. now split.
    + rewrite process_no_name by assumption.
      exists []. rewrite app_nil_r. now split.
Qed.


(** ** C5: the rows after a run *)


(** ** C6: the address check *)

Lemma email_ok_iff (email : str) :
  email_ok email = true <-> accepted_address email.
Proof.
  unfold email_ok. rewrite bool_decide_eq_true.
  unfold re_match, match_here, email_regex. cbn [rmatch]. split.
  - intros [m H].
    apply rrepeat_sound in H as (local & v & -> & Hl & Hll & _ & H).
    destruct v as [|c v]; [discriminate|].
    cbn [atom_matches] in H.
    destruct (c =? ord "@")%N eqn:Ec; [|discriminate].
    apply N.eqb_eq in Ec as ->.
    apply rrepeat_sound in H as (dom & v' & -> & Hd & Hdl & _ & H).
    destruct v' as [|c v']; [discriminate|].
    cbn [atom_matches] in H.
    destruct (c =? ord ".")%N eqn:Ec; [|discriminate].
    apply N.eqb_eq in Ec as ->.
    apply rrepeat_sound in H as (tld & eol & -> & Ht & Htl & _ & H).
    exists local, dom, tld, eol.
    repeat split; try assumption.
    destruct eol as [|c [|c' eol]]; [now left | | discriminate].
    destruct (c =? 10)%N eqn:Ec; [|discriminate].
    apply N.eqb_eq in Ec as ->. now right.
  - intros (local & dom & tld & eol & -> & Hll & Hl & Hdl & Hd & Htl & Ht & Heol).
    apply rrepeat_complete; try assumption; [intros h [=]|].
    cbn [str_app atom_matches]. rewrite N.eqb_refl.
    apply rrepeat_complete; try assumption; [intros h [=]|].
    cbn [str_app atom_matches]. rewrite N.eqb_refl.
    apply rrepeat_complete; try assumption; [intros h [=]|].
    destruct Heol as [-> | ->]; cbn; eauto.
Qed.

Lemma domain_class_upper (c : N) :
  upper_b_to_y c = true ->
  atom_matches domain_class c = false /\
  atom_matches local_class c = true /\ atom_matches tld_class c = true.
Proof.
  intros H. apply andb_true_iff in H as [H1 H2]. apply N.leb_le in H1, H2.
  assert (Hc : exists k, (k < 24)%nat /\ c = N.of_nat (66 + k)).
  { exists (N.to_nat c - 66)%nat. lia. }
  destruct Hc as (k & Hk & ->).
  do 24 (destruct k as [|k]; [repeat split|]). lia.
Qed.

(** An address whose domain part begins with an upper-case letter other
    than A and Z is rejected, whatever follows. *)
Lemma uppercase_after_at_rejected (local : str) (c : N) (rest : str) :
  all_str (atom_matches local_class) local = true ->
  upper_b_to_y c = true ->
  email_ok (local +:+ "@" +:+ SChar c rest) = false.
Proof.
  intros Hlocal Hc.
  destruct (email_ok (local +:+ "@" +:+ SChar c rest)) eqn:E; [|reflexivity].
  apply email_ok_iff in E
    as (local' & dom & tld & eol & Heq & _ & Hl' & Hdl & Hd & _).
  destruct (run_unique (atom_matches local_class) (ord "@") eq_refl _ _ _ _ Heq Hlocal Hl')
    as [_ Hrest].
  destruct dom as [|d dom]; [simpl in Hdl; lia|].
  injection Hrest as -> _.
  cbn [all_str] in Hd. apply andb_true_iff in Hd as [Hd _].
  destruct (domain_class_upper d Hc) as [Hno _]. congruence.
Qed.

(** C6 fails on the code. The address [user@Example.com] has a local
    part, an [@], a domain with a dot and a top-level domain of three
    letters, and the check rejects it: the class of the domain part is
    written [a-zAZ0-9.-], which has the two letters [A] and [Z] in place
    of the range [A-Z].  The same address in lower case is accepted, and so
    are upper-case letters in the local part and in the top-level domain. *)
Theorem uppercase_domain_rejected :
  email_ok "user@Example.com" = false /\
  email_ok "user@example.com" = true /\
  email_ok "User@example.COM" = true /\
  email_ok "user@AZ.com" = true.
Proof. repeat split. Qed.

(** * Further properties *)

(** ** The parser *)

Lemma digit_value_bound (c : N) : is_digit c = true -> 0 <= digit_value c <= 9.
Proof.
  intros _. unfold digit_value, decimal.
  destruct (c <? 128)%N.
  - destruct ((48 <=? c) && (c <=? 57))%N eqn:E; [|lia].
    apply andb_true_iff in E as [E1 E2]. apply N.leb_le in E1, E2. lia.
  - destruct (decimal_above c) as [v|] eqn:E; [|lia].
    apply decimal_above_digit in E. lia.
Qed.

Lemma number_bound (d : str) :
  all_str is_digit d = true -> (str_len d <= 2)%nat -> 0 <= number d <= 99.
Proof.
  intros Hd Hlen. destruct d as [|c1 [|c2 [|c3 d]]]; simpl in Hlen; try lia.
  - unfold number. simpl. lia.
  - simpl in Hd. rewrite andb_true_r in Hd.
    apply digit_value_bound in Hd. unfold number. simpl. lia.
  - simpl in Hd. rewrite andb_true_r in Hd. apply andb_true_iff in Hd as [H1 H2].
    apply digit_value_bound in H1, H2. unfold number. simpl. lia.
Qed.

(** X1. [parse_grok_response] raises on no text, neither at [int(...)] nor
    at the index [1] of the split, and the rating it returns is between 0
    and 99. *)
Theorem parse_returns_bounded_rating (text : str) :
  exists e, parse_grok_response text = Some e /\ 0 <= rating e <= 99.
Proof.
  destruct (parse_reason_part text) as [r Hr].
  destruct (re_search rating_regex text) as [m|] eqn:E.
  - destruct (search_rating_found _ _ E) as (i & n & Hocc & _ & Hn).
    exists (Evaluation n r). split.
    + apply parse_grok_response_eq; [now rewrite E | assumption].
    + destruct Hocc as (b & d & a & _ & _ & Hlen & Hd & <-).
      apply number_bound; [assumption | lia].
  - exists (Evaluation 0 r). split.
    + apply parse_grok_response_eq; [now rewrite E | assumption].
    + simpl. lia.
Qed.

Lemma startswith_drop (sep s : str) :
  startswith sep s = true -> s = sep +:+ drop_str (str_len sep) s.
Proof.
  intros H. apply startswith_inv in H as [rest ->]. now rewrite drop_app_length.
Qed.

Lemma split1_join (sep : str) (s : str) : forall b a,
  split1 sep s = [b; a] -> s = b +:+ sep +:+ a.
Proof.
  induction s as [|c s IH]; intros b a H.
  - simpl in H. destruct (startswith sep SEmpty) eqn:E; [|discriminate].
    injection H as <- <-. now apply startswith_drop.
  - cbn [split1] in H.
    destruct (startswith sep (SChar c s)) eqn:E.
    + injection H as <- <-. now apply startswith_drop.
    + destruct (split1 sep s) as [|b' [|a' [|x l]]] eqn:Hs; try discriminate.
      injection H as <- <-. now rewrite (IH _ _ eq_refl).
Qed.

Lemma split1_before_first (sep : str) (s : str) : forall b a,
  split1 sep s = [b; a] ->
  forall j, (j < str_len b)%nat -> ~ occurs_at sep s j.
Proof.
  induction s as [|c s IH]; intros b a H j Hj Hocc.
  - simpl in H. destruct (startswith sep SEmpty); [|discriminate].
    injection H as <- <-. simpl in Hj. lia.
  - cbn [split1] in H.
    destruct (startswith sep (SChar c s)) eqn:E.
    + injection H as <- <-. simpl in Hj. lia.
    + destruct (split1 sep s) as [|b' [|a' [|x l]]] eqn:Hs; try discriminate.
      injection H as <- <-. destruct j as [|j].
      * apply occurs_at_0 in Hocc. congruence.
      * apply occurs_at_S in Hocc. simpl in Hj.
        apply (IH _ _ eq_refl j); [lia | assumption].
Qed.

(** X2. The reason [parse_grok_response] returns is a piece of the text it
    is given, and this one: the whole text when the text has no label
    [Reason:]; otherwise the part of what follows the first label that is
    left when the white space before it and after it is taken away, which
    neither begins nor ends with white space. *)
Theorem parse_reason_is_part_of_text (text : str) :
  exists e,
    parse_grok_response text = Some e /\
    (((forall i, ~ occurs_at "Reason:" text i) /\ reason e = text) \/
     (exists before l r,
        text = before +:+ "Reason:" +:+ l +:+ reason e +:+ r /\
        (forall j, (j < str_len before)%nat -> ~ occurs_at "Reason:" text j) /\
        all_str is_space l = true /\ all_str is_space r = true /\
        first_char_space (reason e) = false /\
        last_char_space (reason e) = false)).
Proof.
  destruct (parse_rating_part text) as [n Hn].
  destruct (contains "Reason:" text) eqn:Hc.
  - destruct (split1_contains _ _ Hc) as (b & a & Hs).
    destruct (strip_spec a) as (l & r & Ha & Hl & Hr & Hf & Hlast).
    exists (Evaluation n (strip a)). split.
    + apply parse_grok_response_eq; [assumption|]. now rewrite Hc, Hs.
    + right. exists b, l, r. cbn [reason]. repeat split; try assumption.
      * rewrite <- Ha. now apply split1_join.
      * now apply (split1_before_first _ _ _ _ Hs).
  - exists (Evaluation n text). split.
    + apply parse_grok_response_eq; [assumption|]. now rewrite Hc.
    + left. split; [now apply contains_false | reflexivity].
Qed.

(** X3. The invitation body [evaluate_and_generate_email] returns neither
    begins nor ends with white space, whatever the response is: the
    completion is stripped, and the fallback text has none. *)
Theorem invitation_body_is_stripped (suitability_response : http_response) :
  first_char_space (evaluate_and_generate_email suitability_response) = false /\
  last_char_space (evaluate_and_generate_email suitability_response) = false.
Proof.
  unfold evaluate_and_generate_email.
  destruct (status_code suitability_response =? 200).
  - destruct (strip_spec (content suitability_response)) as (l & r & _ & _ & _ & H1 & H2).
    now split.
  - split; reflexivity.
Qed.

(** ** The address check and the warning branch *)

(** X4. A candidate whose stripped [Emails] field fails the check is
    warned about by name and skipped, whatever the rating is: the turn
    returns, stores the Rating and the Evaluation Reason in the row,
    leaves every other field of the row (so the Status) as it was, and
    does nothing to the outside but show the evaluation and the warning. *)
Theorem invalid_email_warns_and_skips (cd : cohort) (subj : str)
    (header : list str) (idx : nat) (candidate : gmap str str)
    (w : outcomes) (st : state) (name : str) (row : gmap str value) :
  candidate !! "Applicant Name" = Some name ->
  email_ok (candidate_email candidate) = false ->
  df st !! idx = Some row ->
  exists e st',
    fst (evaluate_candidate_with_grok name (evaluation_response w) st) = inr e /\
    process_candidate cd subj header idx candidate w st = (inr tt, st') /\
    trace st' =
      trace st ++ [StWrite (evaluation_message name (evaluation_response w) e);
                   StWarning ("Invalid or missing email for " +:+ name +:+ ".")] /\
    sheet_header st' = sheet_header st /\
    df st' = <[idx := <["Evaluation Reason" := VStr (reason e)]>
                         (<["Rating" := VInt (rating e)]> row)]> (df st).
Proof.
  intros Hname Hok Hrow.
  destruct (evaluation_for_total (evaluation_response w)) as [e He].
  exists e. eexists. split; [|split; [|split; [|split]]].
  - now rewrite (evaluate_run _ _ _ _ He).
  - eapply process_invalid_email; eassumption.
  - reflexivity.
  - reflexivity.
  - cbn [df]. rewrite list_insert_alter.
    apply list_alter_ext; [|reflexivity].
    intros x Hx. rewrite Hrow in Hx. now injection Hx as <-.
Qed.

Lemma lstrip_blank (s : str) : all_str is_space s = true -> lstrip s = SEmpty.
Proof.
  induction s as [|c s IH]; simpl; [reflexivity|].
  intros H. apply andb_true_iff in H as [-> H]. now apply IH.
Qed.

(** X5. A record without an [Emails] field, or with one made of white
    space only, raises nothing at the lookup and fails the address check. *)
Theorem blank_email_fails_check (candidate : gmap str str) :
  candidate !! "Emails" = None \/
  (exists s, candidate !! "Emails" = Some s /\ all_str is_space s = true) ->
  candidate_email candidate = SEmpty /\
  email_ok (candidate_email candidate) = false.
Proof.
  intros H.
  assert (Hblank : candidate_email candidate = SEmpty).
  { unfold candidate_email. destruct H as [-> | (s & -> & Hs)]; [reflexivity|].
    simpl. unfold strip. now rewrite lstrip_blank. }
  rewrite Hblank. split; reflexivity.
Qed.

Lemma last_char_space_app (a : str) (c : N) :
  last_char_space (a +:+ SChar c SEmpty) = is_space c.
Proof.
  induction a as [|x a IH]; [reflexivity|].
  cbn [str_app last_char_space]. rewrite IH.
  now destruct (a +:+ SChar c SEmpty) eqn:E; [destruct a; discriminate|].
Qed.

(** X6. The stripped [Emails] field passes the check exactly when it is a
    non-empty run over [a-zA-Z0-9._%+-], an [@], a non-empty run over
    [a-z], [A], [Z], [0-9], [.] and [-], a dot, and two or more letters,
    with nothing after them. *)
Theorem stripped_address_accepted_iff (candidate : gmap str str) :
  email_ok (candidate_email candidate) = true <->
  exists local dom tld,
    candidate_email candidate = local +:+ "@" +:+ dom +:+ "." +:+ tld /\
    (1 <= str_len local)%nat /\ all_str (atom_matches local_class) local = true /\
    (1 <= str_len dom)%nat /\ all_str (atom_matches domain_class) dom = true /\
    (2 <= str_len tld)%nat /\ all_str (atom_matches tld_class) tld = true.
Proof.
  rewrite email_ok_iff. split.
  - intros (local & dom & tld & eol & Heq & H).
    exists local, dom, tld. split; [|tauto].
    destruct H as (_ & _ & _ & _ & _ & _ & [-> | ->]); [now rewrite app_empty_r in Heq|].
    exfalso.
    destruct (strip_spec (default SEmpty (candidate !! "Emails")))
      as (l & r & _ & _ & _ & _ & Hlast).
    fold (candidate_email candidate) in Hlast. rewrite Heq in Hlast.
    replace (local +:+ "@" +:+ dom +:+ "." +:+ tld +:+ SChar 10 SEmpty)
      with ((local +:+ "@" +:+ dom +:+ "." +:+ tld) +:+ SChar 10 SEmpty)
      in Hlast.
    + rewrite last_char_space_app in Hlast. discriminate.
    + repeat (rewrite app_assoc_str; simpl). reflexivity.
  - intros (local & dom & tld & Heq & H).
    exists local, dom, tld, SEmpty. rewrite app_empty_r.
    split; [assumption|]. intuition.
Qed.

(** ** The header row *)

Lemma list_index_app_l (col : str) (l1 l2 : list str) (c : nat) :
  list_index col l1 = Some c -> list_index col (l1 ++ l2) = Some c.
Proof.
  revert c; induction l1 as [|h t IH]; intros c H; simpl in *; [discriminate|].
  destruct (str_eqb h col); [assumption|].
  destruct (list_index col t) as [k|]; [|discriminate].
  now rewrite (IH k eq_refl).
Qed.

Lemma list_mem_index (col : str) (header : list str) :
  is_Some (list_index col header) -> list_mem col header = true.
Proof.
  induction header as [|h t IH]; simpl; [now intros [x H]|].
  rewrite (str_eqb_sym col h). destruct (str_eqb h col); [reflexivity|].
  intros [x H]. simpl. apply IH. destruct (list_index col t); [eauto | discriminate].
Qed.

Lemma ensure_other (col x : str) (header : list str) :
  str_eqb col x = false -> list_mem col (ensure x header) = list_mem col header.
Proof.
  intros H. unfold ensure. destruct (list_mem x header); [reflexivity|].
  rewrite list_mem_app. unfold list_mem at 2. cbn [existsb].
  rewrite H. now rewrite !orb_false_r.
Qed.

Lemma ensure_unfold (col : str) (header : list str) :
  (ensure col header, ensure_events col header) =
    if list_mem col header then (header, [])
    else (header ++ [col],
          [AddCols 1; UpdateCell 1 (Z.of_nat (length header) + 1) (VStr col)]).
Proof. unfold ensure, ensure_events. now destruct (list_mem col header). Qed.

Lemma columns_lacking (header : list str) :
  with_columns header = header ++ lacking header /\
  columns_events header =
    concat (imap (fun k col =>
                    [AddCols 1;
                     UpdateCell 1 (Z.of_nat (length header + k) + 1) (VStr col)])
                 (lacking header)).
Proof.
  unfold with_columns, columns_events, lacking, missing_columns. cbn [List.filter].
  pose proof (ensure_other "Evaluation Reason" "Status" header eq_refl) as H2.
  pose proof (ensure_other "Rating" "Evaluation Reason" (ensure "Status" header) eq_refl)
    as H3.
  rewrite (ensure_other "Rating" "Status" header eq_refl) in H3.
  pose proof (ensure_unfold "Status" header) as U1.
  pose proof (ensure_unfold "Evaluation Reason" (ensure "Status" header)) as U2.
  pose proof (ensure_unfold "Rating"
                (ensure "Evaluation Reason" (ensure "Status" header))) as U3.
  rewrite H3 in U3. rewrite H2 in U2.
  destruct (list_mem "Status" header);
    destruct (list_mem "Evaluation Reason" header);
    destruct (list_mem "Rating" header);
    injection U3 as -> ->; injection U2 as -> ->; injection U1 as -> ->;
    cbn [negb app concat imap]; unfold compose; cbv beta;
    rewrite ?length_app; cbn [length];
    rewrite <- ?app_assoc, ?app_nil_r; cbn [app];
    (split; [reflexivity|]); repeat (f_equal; try lia).
Qed.

Lemma with_columns_lacking (header : list str) :
  with_columns header = header ++ lacking header.
Proof. apply columns_lacking. Qed.

Lemma columns_events_lacking (header : list str) :
  columns_events header =
    concat (imap (fun k col =>
                    [AddCols 1;
                     UpdateCell 1 (Z.of_nat (length header + k) + 1) (VStr col)])
                 (lacking header)).
Proof. apply columns_lacking. Qed.

(** X7. [add_missing_columns] appends to row 1 the columns among Status,
    Evaluation Reason and Rating that the header lacks, in that order and
    each once, by one [add_cols] and one [update_cell] of the first free
    cell per column.  The columns the header had keep their place, the
    three columns are in the header afterwards, and the data frame is not
    touched. *)
Theorem add_missing_columns_extends_header (st : state) :
  add_missing_columns st =
    (inr tt,
     State (df st)
           (sheet_header st ++ lacking (sheet_header st))
           (trace st ++
            concat (imap (fun k col =>
                            [AddCols 1;
                             UpdateCell 1 (Z.of_nat (length (sheet_header st) + k) + 1)
                                        (VStr col)])
                         (lacking (sheet_header st))))) /\
  (forall col c, list_index col (sheet_header st) = Some c ->
                 list_index col (sheet_header st ++ lacking (sheet_header st)) = Some c) /\
  (forall col, In col missing_columns ->
               is_Some (list_index col (sheet_header st ++ lacking (sheet_header st)))).
Proof.
  split; [|split].
  - rewrite add_missing_columns_run.
    now rewrite with_columns_lacking, columns_events_lacking.
  - intros col c. apply list_index_app_l.
  - rewrite <- with_columns_lacking.
    destruct (with_columns_index (sheet_header st)) as (cs & cr & cg & Hcs & Hcr & Hcg).
    intros col [<-|[<-|[<-|[]]]]; eauto.
Qed.

(** X8. [add_missing_columns] is idempotent: run on the state it leaves,
    it adds no column, writes no cell and changes nothing. *)
Theorem add_missing_columns_idempotent (st : state) :
  add_missing_columns (snd (add_missing_columns st))
  = (inr tt, snd (add_missing_columns st)).
Proof.
  rewrite (add_missing_columns_run st). cbn [snd].
  rewrite add_missing_columns_run. cbn [df sheet_header trace].
  assert (Hl : lacking (with_columns (sheet_header st)) = []).
  { destruct (with_columns_index (sheet_header st)) as (cs & cr & cg & Hcs & Hcr & Hcg).
    unfold lacking, missing_columns. cbn [List.filter].
    rewrite !list_mem_index by eauto. reflexivity. }
  rewrite (with_columns_lacking (with_columns (sheet_header st))).
  rewrite (columns_events_lacking (with_columns (sheet_header st))), Hl.
  cbn [imap concat]. now rewrite !app_nil_r.
Qed.

(** ** A whole run: mails, cells and rows *)

Lemma filter_none {A : Type} (f : A -> bool) (l : list A) :
  (forall x, In x l -> f x = false) -> List.filter f l = [].
Proof.
  induction l as [|a l IH]; intros H; simpl; [reflexivity|].
  rewrite (H a (or_introl eq_refl)). apply IH. intros x Hx. apply H. now right.
Qed.

Lemma smtp_sends_app (l1 l2 : list event) :
  smtp_sends (l1 ++ l2) = smtp_sends l1 ++ smtp_sends l2.
Proof. apply List.filter_app. Qed.

Lemma smtp_sends_columns (header : list str) : smtp_sends (columns_events header) = [].
Proof.
  apply filter_none. intros ev Hin.
  apply columns_events_In in Hin as [-> | (c & v & ->)]; reflexivity.
Qed.

Lemma smtp_sends_candidate (cd : cohort) (subj : str) (header : list str)
    (idx : nat) (candidate : gmap str str) (w : outcomes)
    (name : str) (e : evaluation) :
  smtp_sends (candidate_events cd subj header idx candidate w name e)
  = mail_of cd subj candidate w e.
Proof.
  unfold candidate_events, mail_of.
  destruct (email_ok (candidate_email candidate)); [|reflexivity].
  now destruct (rating e >=? min_rating cd).
Qed.

Lemma smtp_sends_loop (cd : cohort) (subj : str) (header : list str)
    (world : nat -> outcomes) (rows : list (gmap str str)) :
  forall idx,
    (forall c, In c rows -> is_Some (c !! "Applicant Name")) ->
    smtp_sends (loop_events cd subj header world idx rows) =
      concat (imap (fun k candidate =>
                      match evaluation_for (evaluation_response (world (idx + k)%nat)) with
                      | Some e => mail_of cd subj candidate (world (idx + k)%nat) e
                      | None => []
                      end) rows).
Proof.
  induction rows as [|c rest IH]; intros idx Hnames; [reflexivity|].
  cbn [loop_events imap concat].
  destruct (Hnames c (or_introl eq_refl)) as [name ->].
  destruct (evaluation_for_total (evaluation_response (world idx))) as [e He].
  rewrite Nat.add_0_r, He, smtp_sends_app, smtp_sends_candidate.
  f_equal. rewrite IH by (intros c' Hc'; apply Hnames; now right).
  f_equal. apply imap_ext. intros k c' _. unfold compose.
  now replace (S idx + k)%nat with (idx + S k)%nat by lia.
Qed.

(** X9. In a run over records that all have an [Applicant Name], the mails
    handed to SMTP are, in the order of the sheet, one per record whose
    stripped address passes the check and whose rating is at least the
    minimum, to that address, with the subject of the form and the
    invitation generated for that record; no other mail is sent. *)
Theorem mails_of_a_run (cd : cohort) (subj : str) (header0 : list str)
    (data : list (gmap str str)) (world : nat -> outcomes) :
  (forall c, In c data -> is_Some (c !! "Applicant Name")) ->
  smtp_sends (trace (main cd subj header0 data world)) =
    concat (imap (fun idx candidate =>
                    match evaluation_for (evaluation_response (world idx)) with
                    | Some e =>
                        if email_ok (candidate_email candidate)
                           && (rating e >=? min_rating cd)
                        then [SmtpSend (candidate_email candidate) subj
                                (evaluate_and_generate_email (invite_response (world idx)))]
                        else []
                    | None => []
                    end) data).
Proof.
  intros Hnames.
  destruct (main_completes cd subj header0 data world Hnames) as (_ & -> & _).
  rewrite !smtp_sends_app, smtp_sends_columns, smtp_sends_loop by assumption.
  unfold smtp_sends at 1 2 3. cbn [List.filter is_smtp_send app].
  now rewrite app_nil_r.
Qed.

(** ** A run that meets a record without a name *)

Lemma bind_assoc_M {A B C : Type} (m : M A) (f : A -> M B) (g : B -> M C) (st : state) :
  ((m ≫= f) ≫= g) st = (m ≫= (fun x => f x ≫= g)) st.
Proof. unfold mbind, M_bind. now destruct (m st) as [[e|x] st']. Qed.

Lemma iterrows_app (cd : cohort) (subj : str) (header : list str)
    (world : nat -> outcomes) (l1 l2 : list (gmap str str)) :
  forall idx st,
    iterrows cd subj header world idx (l1 ++ l2) st =
      (iterrows cd subj header world idx l1
       ≫= fun _ => iterrows cd subj header world (idx + length l1) l2) st.
Proof.
  induction l1 as [|c l1 IH]; intros idx st.
  - cbn [app iterrows length]. rewrite Nat.add_0_r. reflexivity.
  - cbn [app iterrows length]. rewrite bind_assoc_M.
    destruct (process_candidate cd subj header idx c (world idx) st)
      as [[e|[]] st'] eqn:Hp.
    + now rewrite !(bind_inl _ _ _ _ _ Hp).
    + rewrite !(bind_inr _ _ _ _ _ Hp), IH.
      now replace (S idx + length l1)%nat with (idx + S (length l1))%nat by lia.
Qed.

Lemma main_try_stops (cd : cohort) (subj : str)
    (before : list (gmap str str)) (c : gmap str str)
    (after : list (gmap str str)) (world : nat -> outcomes) (st0 : state) :
  (forall r, In r before -> is_Some (r !! "Applicant Name")) ->
  c !! "Applicant Name" = None ->
  exists st,
    main_try cd subj (before ++ c :: after) world st0
    = (inl (KeyError "Applicant Name"), st) /\
    length (df st) = length (before ++ c :: after) /\
    trace st =
      trace st0 ++ columns_events (sheet_header st0)
      ++ [StWrite (MsgText "Evaluating candidates...")]
      ++ loop_events cd subj (with_columns (sheet_header st0)) world 0 before /\
    (forall idx r, before !! idx = Some r ->
       exists e,
         evaluation_for (evaluation_response (world idx)) = Some e /\
         df st !! idx = Some (processed_row cd r e (VStr <$> r))) /\
    (forall idx, (length before <= idx)%nat ->
                 df st !! idx = data_frame (before ++ c :: after) !! idx).
Proof.
  intros Hnames Hc. unfold main_try.
  destruct (with_columns_index (sheet_header st0)) as (cs & cr & cg & Hcs & Hcr & Hcg).
  set (data := before ++ c :: after).
  set (st1 := State (data_frame data) (with_columns (sheet_header st0))
                    ((trace st0 ++ columns_events (sheet_header st0)) ++
                     [StWrite (MsgText "Evaluating candidates...")])).
  assert (Hlen : length (data_frame data) = length data)
    by (unfold data_frame; apply length_fmap).
  destruct (iterrows_run cd subj (with_columns (sheet_header st0)) world cs cr cg
              Hcs Hcr Hcg before 0%nat st1)
    as (st' & Hit & Hh & Hl & Ht & Hout & Hin).
  { assumption. }
  { subst st1 data. cbn [df]. rewrite Hlen, length_app. simpl. lia. }
  exists st'. split; [|split; [|split; [|split]]].
  - step. cbn [set_df df sheet_header trace].
    step by (apply add_missing_columns_run).
    step. step. apply bind_inl. fold data. fold st1.
    subst data. rewrite iterrows_app. step by exact Hit.
    cbn [iterrows]. apply bind_inl. now apply process_no_name.
  - rewrite Hl. subst st1. cbn [df]. exact Hlen.
  - rewrite Ht. subst st1. cbn [trace]. now rewrite <- !app_assoc.
  - intros idx r Hr.
    destruct (Hin idx r (VStr <$> r) Hr) as (e & He & Hdf).
    + subst st1 data. cbn [df]. rewrite data_frame_lookup. simpl.
      rewrite lookup_app_l by (apply lookup_lt_is_Some; eauto). now rewrite Hr.
    + exists e. now split.
  - intros idx Hidx. rewrite Hout by (simpl; lia). reflexivity.
Qed.

(** X10. When a record has no [Applicant Name] field, the run stops at it:
    the records before it are processed as in a run over them alone, then
    the [KeyError] is shown in place of the success message, and the rows
    of that record and of the later ones stay as they were read. *)
Theorem missing_name_stops_run (cd : cohort) (subj : str) (header0 : list str)
    (before : list (gmap str str)) (c : gmap str str)
    (after : list (gmap str str)) (world : nat -> outcomes) :
  (forall r, In r before -> is_Some (r !! "Applicant Name")) ->
  c !! "Applicant Name" = None ->
  trace (main cd subj header0 (before ++ c :: after) world) =
    removelast (trace (main cd subj header0 before world))
    ++ [StError (KeyError "Applicant Name")] /\
  (forall idx, (idx < length before)%nat ->
     df (main cd subj header0 (before ++ c :: after) world) !! idx =
     df (main cd subj header0 before world) !! idx) /\
  (forall idx, (length before <= idx)%nat ->
     df (main cd subj header0 (before ++ c :: after) world) !! idx =
     data_frame (before ++ c :: after) !! idx).
Proof.
  intros Hnames Hc.
  destruct (main_completes cd subj header0 before world Hnames) as (_ & Ht & Hrows).
  unfold main at 1 3 5.
  destruct (main_try_stops cd subj before c after world
              (State [] header0 [StWrite (MsgText "Fetching data from Google Sheets...")])
              Hnames Hc) as (st & -> & Hl & Ht' & Hrows' & Hrest).
  cbn [df sheet_header trace] in *.
  split; [|split].
  - rewrite Ht, Ht'. f_equal.
    rewrite !app_assoc. rewrite removelast_last. now rewrite <- !app_assoc.
  - intros idx Hidx.
    destruct (lookup_lt_is_Some_2 before idx Hidx) as [r Hr].
    destruct (Hrows idx r Hr) as (e & He & ->).
    destruct (Hrows' idx r Hr) as (e' & He' & ->). congruence.
  - exact Hrest.
Qed.

(** ** Every run *)

Lemma named_prefix_split (data : list (gmap str str)) :
  (forall c, In c data -> is_Some (c !! "Applicant Name")) \/
  exists before c after,
    data = before ++ c :: after /\
    (forall r, In r before -> is_Some (r !! "Applicant Name")) /\
    c !! "Applicant Name" = None.
Proof.
  induction data as [|c data IH].
  - left. intros c [].
  - destruct (c !! "Applicant Name") as [name|] eqn:Hc.
    + destruct IH as [IH | (before & c' & after & -> & Hb & Hc')].
      * left. intros r [<-|Hr]; eauto.
      * right. exists (c :: before), c', after. split; [reflexivity|].
        split; [|assumption]. intros r [<-|Hr]; eauto.
    + right. exists [], c, data. split; [reflexivity|]. split; [intros r []|assumption].
Qed.

(** What any run does to the outside: the turns of the records up to the
    first one without a name, between the messages of [main]. *)
Lemma main_trace_any (cd : cohort) (subj : str) (header0 : list str)
    (data : list (gmap str str)) (world : nat -> outcomes) :
  exists processed rest final,
    data = processed ++ rest /\
    (final = StSuccess "Process completed!" \/
     final = StError (KeyError "Applicant Name")) /\
    trace (main cd subj header0 data world) =
      [StWrite (MsgText "Fetching data from Google Sheets...")]
      ++ columns_events header0
      ++ [StWrite (MsgText "Evaluating candidates...")]
      ++ loop_events cd subj (with_columns header0) world 0 processed
      ++ [final].
Proof.
  destruct (named_prefix_split data) as [Hnames | (before & c & after & -> & Hb & Hc)].
  - exists data, [], (StSuccess "Process completed!").
    rewrite app_nil_r. split; [reflexivity|]. split; [now left|].
    now destruct (main_completes cd subj header0 data world Hnames) as (_ & -> & _).
  - exists before, (c :: after), (StError (KeyError "Applicant Name")).
    split; [reflexivity|]. split; [now right|].
    unfold main.
    destruct (main_try_stops cd subj before c after world
                (State [] header0 [StWrite (MsgText "Fetching data from Google Sheets...")])
                Hb Hc) as (st & -> & _ & -> & _).
    cbn [df sheet_header trace]. now rewrite <- !app_assoc.
Qed.

(** X11. In every run, also one that ends in an error, a mail is handed
    to SMTP only for a record of the sheet whose stripped address passes
    the check and whose rating is at least the minimum; it goes to that
    address, with the subject of the form and the invitation generated for
    that record. *)
Theorem mail_goes_only_to_selected (cd : cohort) (subj : str)
    (header0 : list str) (data : list (gmap str str))
    (world : nat -> outcomes) (to subject body : str) :
  In (SmtpSend to subject body) (trace (main cd subj header0 data world)) ->
  exists idx candidate name e,
    data !! idx = Some candidate /\
    candidate !! "Applicant Name" = Some name /\
    fst (evaluate_candidate_with_grok name (evaluation_response (world idx))
           (State [] [] [])) = inr e /\
    rating e >= min_rating cd /\
    email_ok (candidate_email candidate) = true /\
    to = candidate_email candidate /\ subject = subj /\
    body = evaluate_and_generate_email (invite_response (world idx)).
Proof.
  intros Hin.
  destruct (main_trace_any cd subj header0 data world)
    as (processed & rest & final & -> & Hfinal & Ht).
  rewrite Ht in Hin. clear Ht.
  apply in_app_or in Hin as [Hin|Hin]; [destruct Hin as [Hin|[]]; discriminate|].
  apply in_app_or in Hin as [Hin|Hin].
  { apply columns_events_In in Hin as [H|(c & v & H)]; discriminate. }
  apply in_app_or in Hin as [Hin|Hin]; [destruct Hin as [Hin|[]]; discriminate|].
  apply in_app_or in Hin as [Hin|Hin];
    [|destruct Hin as [Hin|[]]; destruct Hfinal; subst final; discriminate].
  apply loop_events_In in Hin as (k & c & name & e & Hk & Hname & He & Hin).
  unfold candidate_events in Hin. destruct Hin as [Hin|Hin]; [discriminate|].
  destruct (email_ok (candidate_email c)) eqn:Hok.
  - destruct (rating e >=? min_rating cd) eqn:Hge; [|destruct Hin].
    exists k, c, name, e. simpl in Hin.
    destruct Hin as [Hin|[Hin|[Hin|[Hin|[Hin|[]]]]]]; try discriminate.
    injection Hin as H1 H2 H3. subst to subject body.
    rewrite Z.geb_leb in Hge. apply Z.leb_le in Hge.
    split; [now apply lookup_app_l_Some|]. split; [assumption|].
    split; [now rewrite (evaluate_run _ _ _ _ He)|].
    repeat split; auto. lia.
  - destruct Hin as [Hin|[]]. discriminate.
Qed.

Lemma column_bound (header : list str) (name : str) :
  is_Some (list_index name header) ->
  1 <= column header name <= Z.of_nat (length header).
Proof.
  intros [c Hc]. unfold column. rewrite Hc. simpl default.
  assert (c < length header)%nat; [|lia].
  revert c Hc. induction header as [|h t IH]; intros c Hc; simpl in *; [discriminate|].
  destruct (str_eqb h name); [injection Hc as <-; lia|].
  destruct (list_index name t) as [k|]; [|discriminate].
  injection Hc as <-. specialize (IH k eq_refl). lia.
Qed.

(** X12. In every run, a cell is written either in row 1, beyond the
    header the sheet had, and then it holds the name of one of the three
    columns, or in the row [idx + 2] of a record of the sheet, at a column
    of the completed header: no write falls on an existing header cell or
    outside the table. *)
Theorem cells_written_stay_in_table (cd : cohort) (subj : str)
    (header0 : list str) (data : list (gmap str str))
    (world : nat -> outcomes) (r c : Z) (v : value) :
  In (UpdateCell r c v) (trace (main cd subj header0 data world)) ->
  (r = 1 /\ Z.of_nat (length header0) < c <= Z.of_nat (length header0) + 3 /\
   exists col, In col missing_columns /\ v = VStr col) \/
  (exists idx, (idx < length data)%nat /\ r = Z.of_nat idx + 2 /\
               1 <= c <= Z.of_nat (length (header0 ++ lacking header0))).
Proof.
  intros Hin.
  destruct (main_trace_any cd subj header0 data world)
    as (processed & rest & final & -> & Hfinal & Ht).
  rewrite Ht in Hin. clear Ht.
  apply in_app_or in Hin as [Hin|Hin]; [destruct Hin as [Hin|[]]; discriminate|].
  apply in_app_or in Hin as [Hin|Hin].
  { left. rewrite columns_events_lacking in Hin.
    unfold lacking, missing_columns in Hin. cbn [List.filter] in Hin.
    destruct (negb (list_mem "Status" header0));
      destruct (negb (list_mem "Evaluation Reason" header0));
      destruct (negb (list_mem "Rating" header0));
      cbn [imap concat app compose] in Hin;
      repeat (destruct Hin as [Hin|Hin]; [try discriminate|]); try solve [destruct Hin];
      injection Hin as <- <- <-;
      (split; [reflexivity|]); (split; [lia|]);
      eexists; (split; [|reflexivity]); simpl; tauto. }
  apply in_app_or in Hin as [Hin|Hin]; [destruct Hin as [Hin|[]]; discriminate|].
  apply in_app_or in Hin as [Hin|Hin];
    [|destruct Hin as [Hin|[]]; destruct Hfinal; subst final; discriminate].
  right.
  apply loop_events_In in Hin as (k & cand & name & e & Hk & Hname & He & Hin).
  exists k. split; [rewrite length_app; apply lookup_lt_Some in Hk; lia|].
  rewrite <- with_columns_lacking.
  destruct (with_columns_index header0) as (cs & cr & cg & Hcs & Hcr & Hcg).
  pose proof (column_bound (with_columns header0) "Status" (ex_intro _ _ Hcs)).
  pose proof (column_bound (with_columns header0) "Evaluation Reason" (ex_intro _ _ Hcr)).
  pose proof (column_bound (with_columns header0) "Rating" (ex_intro _ _ Hcg)).
  unfold candidate_events in Hin. destruct Hin as [Hin|Hin]; [discriminate|].
  destruct (email_ok (candidate_email cand)).
  - destruct (rating e >=? min_rating cd); [|destruct Hin].
    simpl in Hin.
    destruct Hin as [Hin|[Hin|[Hin|[Hin|[Hin|[]]]]]]; try discriminate;
      injection Hin as <- <- <-; rewrite ?Nat.add_0_l; split; (reflexivity || assumption).
  - destruct Hin as [Hin|[]]. discriminate.
Qed.

(** ** What a run depends on *)


Lemma imap_Forall2 {A B : Type} (R : A -> A -> Prop) (l l' : list A) :
  Forall2 R l l' ->
  forall (f g : nat -> A -> B),
    (forall k c c', R c c' -> f k c = g k c') -> imap f l = imap g l'.
Proof.
  induction 1 as [|c c' l l' Hc _ IH]; intros f g Hfg; [reflexivity|].
  cbn [imap]. f_equal; [now apply Hfg|].
  apply IH. intros k x x' Hx. unfold compose. now apply Hfg.
Qed.

(** X15. The loop never reads what an earlier run stored: the mails of a
    run depend on the [Emails] fields and on the answers only.  Run again
    on records that differ in other fields, such as a Status that is
    already [Selected and Email Sent], it hands the same mails to SMTP. *)
Theorem mails_ignore_other_fields (cd : cohort) (subj : str)
    (header0 header0' : list str) (data data' : list (gmap str str))
    (world : nat -> outcomes) :
  Forall2 (fun c c' => c !! "Emails" = c' !! "Emails") data data' ->
  (forall c, In c data -> is_Some (c !! "Applicant Name")) ->
  (forall c, In c data' -> is_Some (c !! "Applicant Name")) ->
  smtp_sends (trace (main cd subj header0 data world))
  = smtp_sends (trace (main cd subj header0' data' world)).
Proof.
  intros Hsame Hnames Hnames'.
  rewrite !mails_of_a_run by assumption. f_equal.
  apply (imap_Forall2 _ _ _ Hsame). intros k c c' Hc.
  unfold candidate_email. now rewrite Hc.
Qed.

(** ** What a run keeps *)

Lemma keeps_refl (st : state) : keeps st st.
Proof. now split. Qed.

Lemma keeps_trans (st1 st2 st3 : state) : keeps st1 st2 -> keeps st2 st3 -> keeps st1 st3.
Proof.
  intros [Hl1 H1] [Hl2 H2]. split; [congruence|].
  intros j col Hcol. now rewrite H2, H1.
Qed.

Lemma keeping_bind {A B : Type} (m : M A) (f : A -> M B) :
  keeping m -> (forall x, keeping (f x)) -> keeping (m ≫= f).
Proof.
  intros Hm Hf st. specialize (Hm st). unfold mbind, M_bind.
  destruct (m st) as [[e|x] st']; cbn [snd] in *; [assumption|].
  eapply keeps_trans; [eassumption | apply Hf].
Qed.

Lemma keeping_unchanged {A : Type} (m : M A) :
  (forall st, df (snd (m st)) = df st) -> keeping m.
Proof. intros H st. unfold keeps. rewrite H. now split. Qed.

Lemma keeping_df_at_set (idx : nat) (col : str) (v : value) :
  In col missing_columns -> keeping (df_at_set idx col v).
Proof.
  intros Hcol st. unfold keeps, df_at_set. cbn [snd df]. split; [apply length_alter|].
  intros j c (H1 & H2 & H3).
  assert (Hne : col <> c) by (destruct Hcol as [<-|[<-|[<-|[]]]]; congruence).
  destruct (decide (idx = j)) as [->|Hj].
  - rewrite list_lookup_alter_eq. destruct (df st !! j) as [row|]; [|reflexivity].
    simpl. now apply lookup_insert_ne.
  - now rewrite list_lookup_alter_ne.
Qed.

Lemma keeping_persist (header : list str) (idx : nat) (col : str) :
  keeping (persist header idx col).
Proof.
  unfold persist. apply keeping_bind.
  - apply keeping_unchanged. intros st. now destruct (list_index col header).
  - intros c. apply keeping_bind.
    + apply keeping_unchanged. intros st. unfold df_at_get.
      now destruct (df st !! idx ≫= (.!! col)).
    + intros v. now apply keeping_unchanged.
Qed.

Lemma keeping_process_candidate (cd : cohort) (subj : str) (header : list str)
    (idx : nat) (candidate : gmap str str) (w : outcomes) :
  keeping (process_candidate cd subj header idx candidate w).
Proof.
  unfold process_candidate. apply keeping_bind.
  { apply keeping_unchanged. intros st. now destruct (candidate !! "Applicant Name"). }
  intros name. apply keeping_bind.
  { apply keeping_unchanged. intros st.
    destruct (evaluate_returns name (evaluation_response w) st) as [e ->]. reflexivity. }
  intros e. apply keeping_bind; [apply keeping_df_at_set; simpl; tauto|].
  intros _. apply keeping_bind; [apply keeping_df_at_set; simpl; tauto|].
  intros _. destruct (email_ok (candidate_email candidate)).
  - destruct (rating e >=? min_rating cd).
    + apply keeping_bind; [apply keeping_df_at_set; simpl; tauto|].
      intros _. apply keeping_bind.
      { apply keeping_unchanged. intros st. now rewrite send_email_run. }
      intros sent. apply keeping_bind; [now apply keeping_unchanged|].
      intros _. apply keeping_bind; [apply keeping_persist|].
      intros _. apply keeping_bind; [apply keeping_persist|].
      intros _. apply keeping_persist.
    + apply keeping_df_at_set; simpl; tauto.
  - now apply keeping_unchanged.
Qed.

Lemma keeping_iterrows (cd : cohort) (subj : str) (header : list str)
    (world : nat -> outcomes) (rows : list (gmap str str)) :
  forall idx, keeping (iterrows cd subj header world idx rows).
Proof.
  induction rows as [|c rest IH]; intros idx; cbn [iterrows].
  - now apply keeping_unchanged.
  - apply keeping_bind; [apply keeping_process_candidate | intros _; apply IH].
Qed.

(** X16. Every run, however it ends, leaves the data frame with one row
    per record, and changes no field of a record other than Status,
    Evaluation Reason and Rating: the other fields hold what was read. *)
Theorem run_keeps_other_fields (cd : cohort) (subj : str) (header0 : list str)
    (data : list (gmap str str)) (world : nat -> outcomes)
    (idx : nat) (col : str) :
  col <> "Status" -> col <> "Evaluation Reason" -> col <> "Rating" ->
  length (df (main cd subj header0 data world)) = length data /\
  df (main cd subj header0 data world) !! idx ≫= (.!! col)
  = VStr <$> (data !! idx ≫= (.!! col)).
Proof.
  intros H1 H2 H3.
  set (st0 := State [] header0 [StWrite (MsgText "Fetching data from Google Sheets...")]).
  set (st1 := State (data_frame data) header0 (trace st0)).
  assert (Hrest : keeping
            (add_missing_columns ≫= fun _ =>
             emit (StWrite (MsgText "Evaluating candidates...")) ≫= fun _ =>
             row_values_1 ≫= fun header =>
             iterrows cd subj header world 0 data ≫= fun _ =>
             emit (StSuccess "Process completed!"))).
  { apply keeping_bind.
    { apply keeping_unchanged. intros st. now rewrite add_missing_columns_run. }
    intros _. apply keeping_bind; [now apply keeping_unchanged|].
    intros _. apply keeping_bind; [now apply keeping_unchanged|].
    intros header. apply keeping_bind; [apply keeping_iterrows|].
    intros _. now apply keeping_unchanged. }
  specialize (Hrest st1).
  assert (Hdf : keeps st1 (main cd subj header0 data world)).
  { unfold main, main_try. fold st0.
    rewrite (bind_inr _ _ st0 st1 tt eq_refl).
    match type of Hrest with keeps _ (snd ?r) => destruct r as [[e|[]] st] end;
      cbn [snd] in Hrest; [|assumption].
    destruct Hrest as [Hl Hk]. split; assumption. }
  destruct Hdf as [Hl Hk]. subst st1. cbn [df] in *.
  split.
  - rewrite Hl. unfold data_frame. apply length_fmap.
  - rewrite Hk by (repeat split; assumption).
    rewrite data_frame_lookup. destruct (data !! idx) as [c|]; [|reflexivity].
    simpl. apply lookup_fmap.
Qed.

End Program.

(** * Sample runs

    The properties above at the sample inputs, with the decimal digits of
    Unicode 14.0. *)

#[local] Existing Instance unicode_14_digits.

Lemma parse_rating_first_occurrence_witness :
  (exists e, parse_grok_response "8/10 Reason: strong fit" = Some e /\ rating e = 8) /\
  (exists e, parse_grok_response "Not sure, maybe later" = Some e /\ rating e = 0).
Proof.
  split.
  - apply (proj1 (parse_rating_first_occurrence "8/10 Reason: strong fit") 0%nat 8).
    + exists SEmpty, "8", " Reason: strong fit".
      repeat split; try reflexivity; simpl; lia.
    + intros j k Hj. lia.
  - apply (proj2 (proj2 (parse_rating_first_occurrence "Not sure, maybe later"))).
    apply search_rating_none. reflexivity.
Defined.

Lemma parse_reason_after_label_witness :
  (exists e, parse_grok_response "8/10 Reason: strong fit" = Some e /\
             reason e = "strong fit") /\
  (exists e, parse_grok_response "Not sure, maybe later" = Some e /\
             reason e = "Not sure, maybe later").
Proof.
  split.
  - apply (proj1 (parse_reason_after_label "8/10 Reason: strong fit")
             "8/10 " " strong fit").
    + reflexivity.
    + intros j Hj Hocc. apply occurs_at_startswith in Hocc.
      simpl in Hj. do 5 (destruct j as [|j]; [discriminate Hocc|]). lia.
  - apply (proj2 (parse_reason_after_label "Not sure, maybe later")).
    apply contains_false. reflexivity.
Defined.

(** C3 as stated fails: a text without the label is returned as it is,
    with its surrounding white space. *)
Lemma parse_reason_keeps_white_space :
  (forall i, ~ occurs_at "Reason:" " ok" i) /\
  exists e, parse_grok_response " ok" = Some e /\ reason e = " ok" /\
            reason e <> strip " ok".
Proof.
  split.
  - apply contains_false. reflexivity.
  - exists (Evaluation 0 " ok"). repeat split. discriminate.
Qed.


Lemma low_rating_not_selected_witness :
  exists st' evs,
    process_candidate example_cohort "Invitation" example_header 0 candidate_a
      no_markers (example_state candidate_a) = (inr tt, st') /\
    trace st' = trace (example_state candidate_a) ++ evs /\
    smtp_sends evs = [] /\
    store_writes evs = [] /\
    df st' !! 0%nat ≫= (.!! "Status") = Some (VStr "Not Selected").
Proof.
  eapply (low_rating_not_selected example_cohort "Invitation" example_header
            0 candidate_a no_markers (example_state candidate_a) _ "A"
            (Evaluation 0 "Not sure, maybe later") (VStr <$> candidate_a));
    try reflexivity.
Defined.

(** C4 as stated fails: with a rating below the minimum and an [Emails]
    field that fails the check, the Status is not set to [Not Selected]. *)
Lemma low_rating_invalid_email_status_unset :
  fst (evaluate_candidate_with_grok "B" (evaluation_response no_markers)
         (example_state candidate_b))
    = inr (Evaluation 0 "Not sure, maybe later") /\
  0 < min_rating example_cohort /\
  fst (process_candidate example_cohort "Invitation" example_header 0 candidate_b
         no_markers (example_state candidate_b)) = inr tt /\
  df (snd (process_candidate example_cohort "Invitation" example_header 0 candidate_b
             no_markers (example_state candidate_b))) !! 0%nat ≫= (.!! "Status")
    = None /\
  df (snd (process_candidate example_cohort "Invitation" example_header 0 candidate_b
             no_markers (example_state candidate_b))) !! 0%nat ≫= (.!! "Status")
    <> Some (VStr "Not Selected").
Proof.
  split; [reflexivity|]. split; [reflexivity|]. split; [reflexivity|].
  assert (H : df (snd (process_candidate example_cohort "Invitation" example_header 0
                         candidate_b no_markers (example_state candidate_b)))
              !! 0%nat ≫= (.!! "Status") = None) by reflexivity.
  split; [exact H|]. rewrite H. discriminate.
Qed.


Lemma generation_failure_sends_fallback_witness :
  exists st' evs,
    process_candidate example_cohort "Invitation" example_header 0 candidate_a
      generation_down (example_state candidate_a) = (inr tt, st') /\
    df st' !! 0%nat ≫= (.!! "Status") = Some (VStr "Selected and Email Sent") /\
    trace st' = trace (example_state candidate_a) ++ evs /\
    smtp_sends evs =
      [SmtpSend "a@example.com" "Invitation" "Error in generating email content."].
Proof.
  eapply (generation_failure_sends_fallback example_cohort "Invitation" example_header
            0 candidate_a generation_down (example_state candidate_a) "A"
            (Evaluation 8 "strong fit") (VStr <$> candidate_a) 2 3 4);
    try reflexivity.
  - simpl. lia.
  - simpl. lia.
Defined.

Lemma evaluation_failure_never_sends_witness :
  (forall name st0,
     fst (evaluate_candidate_with_grok name (evaluation_response evaluation_down) st0)
     = inr (Evaluation 0 "Error in retrieving data")) /\
  exists evs,
    trace (snd (process_candidate example_cohort "Invitation" example_header 0
                  candidate_a evaluation_down (example_state candidate_a)))
    = trace (example_state candidate_a) ++ evs /\
    smtp_sends evs = [] /\
    store_writes evs = [].
Proof.
  apply (evaluation_failure_never_sends example_cohort "Invitation" example_header
           0 candidate_a evaluation_down (example_state candidate_a)).
  - simpl. lia.
  - simpl. lia.
Defined.




(** The scenario of the specification: with a minimum of 5, the
    candidate evaluated as [8/10 Reason: strong fit] is selected, rated 8
    for the reason [strong fit] and sent one mail; the candidate whose
    evaluation has no marker is rated 0, keeps the whole text as reason,
    is not selected and is sent nothing. *)
Example end_to_end_scenario :
  trace (main example_cohort "Invitation" example_header
           [candidate_a; candidate_c] example_world)
  = [StWrite (MsgText "Fetching data from Google Sheets...");
     StWrite (MsgText "Evaluating candidates...");
     StWrite (MsgEvaluation "A" (Evaluation 8 "strong fit"));
     SmtpSend "a@example.com" "Invitation" "Dear A, please join us.";
     StWrite (MsgText "Email sent successfully to a@example.com");
     UpdateCell 2 3 (VStr "Selected and Email Sent");
     UpdateCell 2 4 (VStr "strong fit");
     UpdateCell 2 5 (VInt 8);
     StWrite (MsgEvaluation "C" (Evaluation 0 "Not sure, maybe later"));
     StSuccess "Process completed!"] /\
  map_to_list <$> df (main example_cohort "Invitation" example_header
                        [candidate_a; candidate_c] example_world)
  = map_to_list <$>
      [ {[ "Applicant Name" := VStr "A"; "Emails" := VStr " a@example.com ";
           "Rating" := VInt 8; "Evaluation Reason" := VStr "strong fit";
           "Status" := VStr "Selected and Email Sent" ]};
        {[ "Applicant Name" := VStr "C"; "Emails" := VStr "c@example.org";
           "Rating" := VInt 0; "Evaluation Reason" := VStr "Not sure, maybe later";
           "Status" := VStr "Not Selected" ]} ].
Proof. split; reflexivity. Qed.

Lemma invalid_email_warns_and_skips_witness :
  exists e st',
    fst (evaluate_candidate_with_grok "D" (evaluation_response strong_fit)
           (example_state candidate_d)) = inr e /\
    process_candidate example_cohort "Invitation" example_header 0 candidate_d
      strong_fit (example_state candidate_d) = (inr tt, st') /\
    trace st' =
      trace (example_state candidate_d)
      ++ [StWrite (evaluation_message "D" (evaluation_response strong_fit) e);
          StWarning "Invalid or missing email for D."] /\
    sheet_header st' = sheet_header (example_state candidate_d) /\
    df st' = <[0%nat := <["Evaluation Reason" := VStr (reason e)]>
                          (<["Rating" := VInt (rating e)]> (VStr <$> candidate_d))]>
               (df (example_state candidate_d)).
Proof.
  apply (invalid_email_warns_and_skips example_cohort "Invitation" example_header
           0 candidate_d strong_fit (example_state candidate_d) "D"
           (VStr <$> candidate_d)); reflexivity.
Defined.

Lemma blank_email_fails_check_witness :
  candidate_email {[ "Applicant Name" := "E" ]} = SEmpty /\
  email_ok (candidate_email {[ "Applicant Name" := "E" ]}) = false.
Proof.
  apply (blank_email_fails_check {[ "Applicant Name" := "E" ]}).
  left. reflexivity.
Defined.

Lemma stripped_address_accepted_iff_witness :
  email_ok (candidate_email candidate_a) = true.
Proof.
  apply (proj2 (stripped_address_accepted_iff candidate_a)).
  exists "a", "example", "com". repeat split; try reflexivity; simpl; lia.
Defined.

Lemma example_data_named :
  forall c, In c example_data -> is_Some (c !! "Applicant Name").
Proof. intros c [<-|[<-|[<-|[<-|[]]]]]; eexists; reflexivity. Defined.

Lemma mails_of_a_run_witness :
  smtp_sends (trace (main example_cohort "Invitation" example_header
                       example_data example_answers))
  = [SmtpSend "a@example.com" "Invitation" "Dear A, please join us."].
Proof.
  exact (mails_of_a_run example_cohort "Invitation" example_header
           example_data example_answers example_data_named).
Defined.

Lemma missing_name_stops_run_witness :
  trace (main example_cohort "Invitation" ["Emails"]
           ([] ++ {[ "Emails" := "x@example.org" ]} :: [{[ "Emails" := "y@example.org" ]}])
           example_answers) =
    removelast (trace (main example_cohort "Invitation" ["Emails"] [] example_answers))
    ++ [StError (KeyError "Applicant Name")] /\
  (forall idx, (idx < length ([] : list (gmap str str)))%nat ->
     df (main example_cohort "Invitation" ["Emails"]
           ([] ++ {[ "Emails" := "x@example.org" ]} :: [{[ "Emails" := "y@example.org" ]}])
           example_answers) !! idx =
     df (main example_cohort "Invitation" ["Emails"] [] example_answers) !! idx) /\
  (forall idx, (length ([] : list (gmap str str)) <= idx)%nat ->
     df (main example_cohort "Invitation" ["Emails"]
           ([] ++ {[ "Emails" := "x@example.org" ]} :: [{[ "Emails" := "y@example.org" ]}])
           example_answers) !! idx =
     data_frame ([] ++ {[ "Emails" := "x@example.org" ]} :: [{[ "Emails" := "y@example.org" ]}])
       !! idx).
Proof.
  apply (missing_name_stops_run example_cohort "Invitation" ["Emails"]
           [] {[ "Emails" := "x@example.org" ]} [{[ "Emails" := "y@example.org" ]}]
           example_answers).
  - intros r [].
  - reflexivity.
Defined.

Lemma mail_goes_only_to_selected_witness :
  exists idx candidate name e,
    example_data !! idx = Some candidate /\
    candidate !! "Applicant Name" = Some name /\
    fst (evaluate_candidate_with_grok name (evaluation_response (example_answers idx))
           (State [] [] [])) = inr e /\
    rating e >= min_rating example_cohort /\
    email_ok (candidate_email candidate) = true /\
    "a@example.com" = candidate_email candidate /\ "Invitation" = "Invitation" /\
    "Dear A, please join us."
    = evaluate_and_generate_email (invite_response (example_answers idx)).
Proof.
  apply (mail_goes_only_to_selected example_cohort "Invitation" example_header
           example_data example_answers
           "a@example.com" "Invitation" "Dear A, please join us.").
  vm_compute. tauto.
Defined.

Lemma cells_written_stay_in_table_witness :
  (2 = 1 /\ Z.of_nat (length example_header) < 5 <= Z.of_nat (length example_header) + 3 /\
   exists col, In col missing_columns /\ VInt 8 = VStr col) \/
  (exists idx, (idx < length example_data)%nat /\ 2 = Z.of_nat idx + 2 /\
               1 <= 5 <= Z.of_nat (length (example_header ++ lacking example_header))).
Proof.
  apply (cells_written_stay_in_table example_cohort "Invitation" example_header
           example_data example_answers 2 5 (VInt 8)).
  vm_compute. tauto.
Defined.



Lemma mails_ignore_other_fields_witness :
  smtp_sends (trace (main example_cohort "Invitation" example_header
                       example_data example_answers))
  = smtp_sends (trace (main example_cohort "Invitation" example_header
                         example_data_rerun example_answers)).
Proof.
  apply (mails_ignore_other_fields example_cohort "Invitation" example_header
           example_header example_data example_data_rerun example_answers).
  - repeat constructor.
  - exact example_data_named.
  - intros c [<-|[<-|[<-|[<-|[]]]]]; eexists; reflexivity.
Defined.

Lemma run_keeps_other_fields_witness :
  length (df (main example_cohort "Invitation" example_header
                example_data example_answers)) = length example_data /\
  df (main example_cohort "Invitation" example_header example_data example_answers)
    !! 0%nat ≫= (.!! "Emails")
  = VStr <$> (example_data !! 0%nat ≫= (.!! "Emails")).
Proof.
  apply (run_keeps_other_fields example_cohort "Invitation" example_header
           example_data example_answers 0 "Emails"); discriminate.
Defined.

(** Digits and white space beyond ASCII: [U+0663] is the Arabic-Indic
    digit three, which [\d] matches and [int] reads as 3; [U+2003] and
    [U+3000] are white space that [strip] removes. *)
Example rating_of_arabic_indic_digit :
  parse_grok_response (SChar 0x663 "/10")
    = Some (Evaluation 3 (SChar 0x663 "/10")) /\
  parse_grok_response (SChar (ord "1") (SChar 0x663 "/10 Reason: fine"))
    = Some (Evaluation 13 "fine").
Proof. split; reflexivity. Qed.

Example strip_of_wide_spaces :
  strip (SChar 0x2003 ("ok" +:+ SChar 0x3000 SEmpty)) = "ok" /\
  parse_grok_response ("7/10 Reason:" +:+ SChar 0x2003 ("ok" +:+ SChar 0x3000 SEmpty))
    = Some (Evaluation 7 "ok").
Proof. split; reflexivity. Qed.
